(** * Biotechnology product simulator: the tissue grid, the vessel and the
      drug particles of [script.js]

    The development follows the JavaScript source function by function.
    JavaScript numbers are modelled by exact rationals ([Q]); the functions of
    the host's [Math] object that have no exact rational counterpart
    ([Math.hypot], [Math.sin], [Math.cos], [Math.PI]) are a parameter of the
    model, and so are the canvas dimensions (declared in the HTML page) and
    the sequence of values returned by [Math.random].  The module-level
    variables [cells], [particles], [running] and the objects they refer to
    form the [world] that every function of the script reads and mutates;
    particle objects live in a heap, because [stepSimulation] puts the same
    object into the [particles] array more than once. *)

From Stdlib Require Import QArith Qround Qpower Qabs Lqa ZArith Lia Relations.
From stdpp Require Import base option list gmap.

Set Default Proof Using "Type".
#[local] Set Warnings "-clear-no-such-hyp".

(** ** Numbers *)

Module Num.

(** [a < b] and [a <= b] on JavaScript numbers, as booleans. *)
Definition leb (a b : Q) : bool := Qle_bool a b.
Definition ltb (a b : Q) : bool := negb (Qle_bool b a).
Definition eqb (a b : Q) : bool := Qeq_bool a b.

(** [Math.round]: the nearest integer, ties towards plus infinity. *)
Definition round (q : Q) : Z := Qfloor (q + 0.5).

(** [Math.floor]. *)
Definition floor (q : Q) : Z := Qfloor q.

(** [Math.max] and [Math.min] on two numbers. *)
Definition max (a b : Q) : Q := if leb a b then b else a.
Definition min (a b : Q) : Q := if leb a b then a else b.

(** [a || b] on numbers: [b] when [a] is zero. *)
Definition or_else (a b : Q) : Q := if eqb a 0 then b else a.


Lemma ltb_lt a b : ltb a b = true <-> (a < b)%Q.
Proof.
  unfold ltb. rewrite negb_true_iff, <- not_true_iff_false, Qle_bool_iff.
  split; [apply Qnot_le_lt | apply Qlt_not_le].
Qed.

Lemma ltb_ge a b : ltb a b = false <-> (b <= a)%Q.
Proof. unfold ltb. rewrite negb_false_iff. apply Qle_bool_iff. Qed.


Lemma eqb_eq a b : eqb a b = true <-> (a == b)%Q.
Proof. apply Qeq_bool_iff. Qed.

Lemma or_else_nonzero a b : ~ (b == 0)%Q -> ~ (or_else a b == 0)%Q.
Proof.
  intros Hb. unfold or_else. destruct (eqb a 0) eqn:E; [exact Hb|].
  intros Ha. apply eqb_eq in Ha. congruence.
Qed.

Lemma round_inject (z : Z) : round (inject_Z z) = z.
Proof.
  unfold round. apply Z.le_antisymm.
  - assert (H := Qfloor_le (inject_Z z + 0.5)).
    assert (inject_Z (Qfloor (inject_Z z + 0.5)) < inject_Z (z + 1))%Q
      as H1.
    { eapply Qle_lt_trans; [exact H|]. rewrite inject_Z_plus. change (inject_Z 1) with 1%Q. lra. }
    rewrite <- Zlt_Qlt in H1. lia.
  - rewrite <- (Qfloor_Z z) at 1. apply Qfloor_resp_le. lra.
Qed.

End Num.

(** ** The host environment *)

(** The part of [Math] that the script calls and that rationals cannot
    express exactly. *)
Record MathLib : Type := {
  hypot : Q -> Q -> Q;
  sin : Q -> Q;
  cos : Q -> Q;
  PI : Q
}.

(** Everything the script takes from its host: [Math], the canvas element of
    the page, the phase drawn when the script is loaded
    ([vesselParams.phase]) and the successive results of [Math.random]. *)
Record env : Type := {
  Math : MathLib;
  canvas_width : Z;
  canvas_height : Z;
  phase : Q;
  random : nat -> Q
}.


(** ** Grid sites and particles *)

Record cell : Type := mkCell {
  c_x : Q;
  c_y : Q;
  c_state : Z;
  c_size : Q
}.

Inductive ptype : Type := compound | Y.

(** A particle object.  Properties that an object literal of the script may
    leave out are options ([undefined] is [None]); [idle], [wander] and
    [dead] are only ever tested for truthiness, so they are booleans.  The
    property [hasC] of the compounds is never read and is left out. *)
Record particle : Type := mkParticle {
  p_x : Q;
  p_y : Q;
  p_vx : Q;
  p_vy : Q;
  p_type : ptype;
  p_leached : bool;
  p_targetIdx : option nat;
  p_parentIdx : option nat;
  p_idle : bool;
  p_wander : bool;
  p_ttl : option Z;
  p_steerAggression : option Q;
  p_dead : bool
}.

Definition is_tumor (c : cell) : bool := (c_state c =? 1)%Z.

(** [c.state = 0; c.size = 0]. *)
Definition killed (c : cell) : cell :=
  {| c_x := c_x c; c_y := c_y c; c_state := 0; c_size := 0 |}.

(** Assignments to the properties of a particle object. *)
Definition set_pos (x y : Q) (p : particle) : particle :=
  mkParticle x y (p_vx p) (p_vy p) (p_type p) (p_leached p) (p_targetIdx p)
    (p_parentIdx p) (p_idle p) (p_wander p) (p_ttl p) (p_steerAggression p)
    (p_dead p).

Definition set_vel (vx vy : Q) (p : particle) : particle :=
  mkParticle (p_x p) (p_y p) vx vy (p_type p) (p_leached p) (p_targetIdx p)
    (p_parentIdx p) (p_idle p) (p_wander p) (p_ttl p) (p_steerAggression p)
    (p_dead p).

Definition set_leached (b : bool) (p : particle) : particle :=
  mkParticle (p_x p) (p_y p) (p_vx p) (p_vy p) (p_type p) b (p_targetIdx p)
    (p_parentIdx p) (p_idle p) (p_wander p) (p_ttl p) (p_steerAggression p)
    (p_dead p).

Definition set_targetIdx (t : nat) (p : particle) : particle :=
  mkParticle (p_x p) (p_y p) (p_vx p) (p_vy p) (p_type p) (p_leached p)
    (Some t) (p_parentIdx p) (p_idle p) (p_wander p) (p_ttl p)
    (p_steerAggression p) (p_dead p).

Definition set_idle (b : bool) (p : particle) : particle :=
  mkParticle (p_x p) (p_y p) (p_vx p) (p_vy p) (p_type p) (p_leached p)
    (p_targetIdx p) (p_parentIdx p) b (p_wander p) (p_ttl p)
    (p_steerAggression p) (p_dead p).

Definition set_ttl (t : Z) (p : particle) : particle :=
  mkParticle (p_x p) (p_y p) (p_vx p) (p_vy p) (p_type p) (p_leached p)
    (p_targetIdx p) (p_parentIdx p) (p_idle p) (p_wander p) (Some t)
    (p_steerAggression p) (p_dead p).

Definition set_dead (b : bool) (p : particle) : particle :=
  mkParticle (p_x p) (p_y p) (p_vx p) (p_vy p) (p_type p) (p_leached p)
    (p_targetIdx p) (p_parentIdx p) (p_idle p) (p_wander p) (p_ttl p)
    (p_steerAggression p) b.

(** ** Constants of the script *)

Definition spacing : Q := 18.
Definition vesselSpeedBase : Q := 3.2.
Definition leechSpeedBase : Q := 2.4.
Definition slope : Q := 0.18.
Definition amplitude : Q := 26.
Definition freq : Q := 0.010.
Definition MAX_PARTICLES : nat := 1200.

Section Geometry.

Variable E : env.

Local Open Scope Q_scope.

Definition cols : Z := Num.floor (inject_Z (canvas_width E) / spacing).
Definition rows : Z := Num.floor (inject_Z (canvas_height E) / spacing).
Definition vesselX : Z := Num.floor (inject_Z (canvas_width E) * 0.62).

Definition vesselBoundaryX (y : Q) : Q :=
  inject_Z vesselX + slope * y
  + amplitude * sin (Math E) (freq * y + phase E).

Definition vesselTangentDerivative (y : Q) : Q :=
  slope + amplitude * freq * cos (Math E) (freq * y + phase E).

Definition isInVesselXY (x y : Q) : bool :=
  Num.leb (vesselBoundaryX y) x.

(** The divisor of [normalized]: [Math.hypot(vx, vy) || 1]. *)
Definition normalized_m (vx vy : Q) : Q :=
  Num.or_else (hypot (Math E) vx vy) 1.

Definition normalized (vx vy : Q) : Q * Q :=
  let m := normalized_m vx vy in (vx / m, vy / m).

Definition cellIndex (ix iy : Z) : Z :=
  if ((ix <? 0) || (iy <? 0) || (cols <=? ix) || (rows <=? iy))%Z
  then (-1)%Z else (iy * cols + ix)%Z.

(** The lattice coordinates the script recomputes from a site's position:
    [Math.round((c.x - spacing/2) / spacing)]. *)
Definition gridX (c : cell) : Z := Num.round ((c_x c - spacing / 2) / spacing).
Definition gridY (c : cell) : Z := Num.round ((c_y c - spacing / 2) / spacing).

(** The eight offsets [(ox, oy)] in the order of the two nested loops
    ([oy] outside, [ox] inside, the centre skipped). *)
Definition offsets8 : list (Z * Z) :=
  [(-1, -1); (0, -1); (1, -1); (-1, 0); (1, 0); (-1, 1); (0, 1); (1, 1)]%Z.

(** [idx >= 0 && cells[idx] && cells[idx].state === 1]. *)
Definition tumorAt (cs : list cell) (idx : Z) : bool :=
  if (idx <? 0)%Z then false
  else match cs !! Z.to_nat idx with
       | Some c => is_tumor c
       | None => false
       end.

Definition neighborIdxs (c : cell) : list Z :=
  map (fun o => cellIndex (gridX c + fst o) (gridY c + snd o)) offsets8.

(** [neighborsCount(i)]; the script only calls it with a valid [i]. *)
Definition neighborsCount (cs : list cell) (i : nat) : nat :=
  match cs !! i with
  | Some c => length (filter (fun idx => tumorAt cs idx = true) (neighborIdxs c))
  | None => 0%nat
  end.

(** [neighborTumorIndicesForCellIdx(idx)]. *)
Definition neighborTumorIndicesForCellIdx (cs : list cell) (idx : nat)
  : list nat :=
  match cs !! idx with
  | Some c =>
      map Z.to_nat (filter (fun idx => tumorAt cs idx = true) (neighborIdxs c))
  | None => []
  end.

(** The growth probability of [stepSimulation] for a healthy site with
    [neigh] tumor neighbours:
    [g = growthRate / 15000; prob = 1 - Math.pow(1 - g, neigh)]. *)
Definition growth_g (growthRate : Q) : Q := growthRate / 15000.
Definition growth_prob (growthRate : Q) (neigh : nat) : Q :=
  1 - (1 - growth_g growthRate) ^ Z.of_nat neigh.

End Geometry.

(** ** The mutable state of the script *)

(** [cells] and [particles] are the module-level arrays; [particles] and
    [spawned] (the local array of a running [stepSimulation]) hold references
    into [heap].  [rng] counts the calls of [Math.random] made so far,
    [running] is the script's flag, and [spawn_installed] records whether
    [window.spawnDrugParticles] has been assigned: the assignment is a
    statement of the body of [stepSimulation]. *)
Record world : Type := mkWorld {
  cells : list cell;
  heap : gmap positive particle;
  next_ref : positive;
  particles : list positive;
  spawned : list positive;
  rng : nat;
  running : bool;
  spawn_installed : bool
}.

Definition with_cells (cs : list cell) (w : world) : world :=
  mkWorld cs (heap w) (next_ref w) (particles w) (spawned w) (rng w)
    (running w) (spawn_installed w).

Definition with_heap (h : gmap positive particle) (w : world) : world :=
  mkWorld (cells w) h (next_ref w) (particles w) (spawned w) (rng w)
    (running w) (spawn_installed w).

Definition with_particles (ps : list positive) (w : world) : world :=
  mkWorld (cells w) (heap w) (next_ref w) ps (spawned w) (rng w)
    (running w) (spawn_installed w).

Definition with_spawned (sp : list positive) (w : world) : world :=
  mkWorld (cells w) (heap w) (next_ref w) (particles w) sp (rng w)
    (running w) (spawn_installed w).

Definition with_running (b : bool) (w : world) : world :=
  mkWorld (cells w) (heap w) (next_ref w) (particles w) (spawned w) (rng w)
    b (spawn_installed w).

Definition with_spawn_installed (b : bool) (w : world) : world :=
  mkWorld (cells w) (heap w) (next_ref w) (particles w) (spawned w) (rng w)
    (running w) b.

(** A new object: it gets the next free reference. *)
Definition alloc (p : particle) (w : world) : positive * world :=
  (next_ref w,
   mkWorld (cells w) (<[next_ref w := p]> (heap w)) (Pos.succ (next_ref w))
     (particles w) (spawned w) (rng w) (running w) (spawn_installed w)).

(** ** A state monad over the world *)

Definition sim (A : Type) : Type := world -> A * world.

Definition ret {A} (a : A) : sim A := fun w => (a, w).

Definition bind {A B} (m : sim A) (f : A -> sim B) : sim B :=
  fun w => let (a, w') := m w in f a w'.

Declare Scope sim_scope.
Delimit Scope sim_scope with sim.
Bind Scope sim_scope with sim.

Notation "x <- m ;; k" := (bind m (fun x => k))
  (at level 20, m at level 99, k at level 200, only parsing) : sim_scope.
Notation "m ;; k" := (bind m (fun _ => k))
  (at level 100, k at level 200, only parsing, right associativity)
  : sim_scope.

Local Open Scope sim_scope.

Definition exec {A} (m : sim A) (w : world) : world := snd (m w).

Fixpoint for_each {A} (l : list A) (f : A -> sim unit) : sim unit :=
  match l with
  | [] => ret tt
  | a :: l' => f a ;; for_each l' f
  end.

Fixpoint map_m {A B} (f : A -> sim B) (l : list A) : sim (list B) :=
  match l with
  | [] => ret []
  | a :: l' => b <- f a ;; bs <- map_m f l' ;; ret (b :: bs)
  end.

Definition get_cells : sim (list cell) := fun w => (cells w, w).

Definition set_cell (i : nat) (c : cell) : sim unit :=
  fun w => (tt, with_cells (<[i := c]> (cells w)) w).

(** [cells[i].state = 0; cells[i].size = 0]. *)
Definition kill_cell (i : nat) : sim unit :=
  fun w => (tt, with_cells (alter killed i (cells w)) w).

(** [spawned.push(p)] with [p] a new object. *)
Definition spawned_push (p : particle) : sim unit :=
  fun w => let (r, w') := alloc p w in
           (tt, with_spawned (spawned w' ++ [r]) w').

(** [particles.push(p)] with [p] a new object. *)
Definition particles_push (p : particle) : sim unit :=
  fun w => let (r, w') := alloc p w in
           (tt, with_particles (particles w' ++ [r]) w').

Section Simulation.

Variable E : env.

Local Open Scope Q_scope.

(** [Math.random()]. *)
Definition Math_random : sim Q :=
  fun w => (random E (rng w),
            mkWorld (cells w) (heap w) (next_ref w) (particles w)
              (spawned w) (S (rng w)) (running w) (spawn_installed w)).

(** *** Tumor growth (the first two loops of [stepSimulation]) *)

(** The entry [newStates[i]] computed for site [i]. *)
Definition growth_decide (growthRate : Q) (cs : list cell) (i : nat)
  : sim Z :=
  match cs !! i with
  | None => ret 0%Z
  | Some c =>
      if is_tumor c then ret 1%Z
      else if isInVesselXY E (c_x c) (c_y c) then ret 0%Z
      else
        let neigh := neighborsCount E cs i in
        if (0 <? neigh)%nat then
          r <- Math_random ;;
          ret (if Num.ltb r (growth_prob growthRate neigh) then 1%Z else 0%Z)
        else ret 0%Z
  end.

Definition growth_newStates (growthRate : Q) : sim (list Z) :=
  cs <- get_cells ;;
  map_m (growth_decide growthRate cs) (seq 0 (length cs)).

(** One round of the second loop:
    [if(newStates[i]===1 && cells[i].state===0) ...]. *)
Definition growth_apply_at (newStates : list Z) (i : nat) : sim unit :=
  cs <- get_cells ;;
  match newStates !! i, cs !! i with
  | Some n, Some c =>
      if ((n =? 1) && (c_state c =? 0))%Z then
        r <- Math_random ;;
        set_cell i (mkCell (c_x c) (c_y c) 1 (6 + r * 10))
      else ret tt
  | _, _ => ret tt
  end.

Definition growth (growthRate : Q) : sim unit :=
  newStates <- growth_newStates growthRate ;;
  cs <- get_cells ;;
  for_each (seq 0 (length cs)) (growth_apply_at newStates).

(** *** Transport (the first half of the particle loop) *)

Definition leechSpeed (drugAmount : Q) : Q :=
  leechSpeedBase * (1 + drugAmount / 120).

Definition vesselSpeed (drugAmount : Q) : Q :=
  vesselSpeedBase * (1 + drugAmount / 80).

(** [tgt = cells[part.targetIdx]] when [tgt && tgt.state === 1]. *)
Definition liveTarget (cs : list cell) (p : particle) : option cell :=
  match p_targetIdx p with
  | Some t =>
      match cs !! t with
      | Some tgt => if is_tumor tgt then Some tgt else None
      | None => None
      end
  | None => None
  end.

(** [dirTo = normalized(tgt.x - part.x, tgt.y - part.y);
     part.vx = dirTo.x * speed; part.vy = dirTo.y * speed]. *)
Definition headTo (tgt : cell) (speed : Q) (p : particle) : particle :=
  let dirTo := normalized E (c_x tgt - p_x p) (c_y tgt - p_y p) in
  set_vel (fst dirTo * speed) (snd dirTo * speed) p.

(** The scan for the nearest tumor site, written out three times in the
    script: [bestIdx = -1, bestD = 1e9], and a tumor site at distance
    [d < bestD] replaces the best one. *)
Fixpoint nearest_from (x y : Q) (cs : list cell) (ti : nat) (best : Z * Q)
  : Z * Q :=
  match cs with
  | [] => best
  | t :: cs' =>
      let best' :=
        if is_tumor t then
          let d := hypot (Math E) (c_x t - x) (c_y t - y) in
          if Num.ltb d (snd best) then (Z.of_nat ti, d) else best
        else best in
      nearest_from x y cs' (S ti) best'
  end.

Definition nearestTumor (cs : list cell) (x y : Q) : Z :=
  fst (nearest_from x y cs 0 ((-1)%Z, 1e9)).

(** [part.idle = true; part.vx = 0; part.vy = 0]. *)
Definition goIdle (p : particle) : particle := set_vel 0 0 (set_idle true p).

Definition steerY (drugAmount : Q) (cs : list cell) (p : particle)
  : particle :=
  match p_type p, p_targetIdx p, p_idle p with
  | Y, Some _, false =>
      match liveTarget cs p with
      | Some tgt => headTo tgt (leechSpeed drugAmount) p
      | None => goIdle p
      end
  | _, _, _ => p
  end.

Definition steerCompound (drugAmount : Q) (cs : list cell) (p : particle)
  : particle :=
  match p_type p, p_leached p, p_targetIdx p, p_idle p with
  | compound, true, Some _, false =>
      match liveTarget cs p with
      | Some tgt => headTo tgt (leechSpeed drugAmount) p
      | None =>
          let bestIdx := nearestTumor cs (p_x p) (p_y p) in
          if (0 <=? bestIdx)%Z then set_targetIdx (Z.to_nat bestIdx) p
          else goIdle p
      end
  | _, _, _, _ => p
  end.

(** [part.x += part.vx; part.y += part.vy]. *)
Definition move (p : particle) : particle :=
  set_pos (p_x p + p_vx p) (p_y p + p_vy p) p.

(** The push perpendicular to the vessel, into the muscle. *)
Definition pushIntoMuscle (speed : Q) (p : particle) : particle :=
  let dxdy := vesselTangentDerivative E (p_y p) in
  let nn := normalized E (-1) dxdy in
  let nn' := if Num.ltb 0 (fst nn) then (- fst nn, - snd nn) else nn in
  set_vel (fst nn' * speed) (snd nn' * speed) p.

(** The block [if(!part.leached){ ... }]. *)
Definition vesselStep (drugAmount : Q) (cs : list cell) (p : particle)
  : particle :=
  if p_leached p then p
  else if Num.leb (p_x p) (vesselBoundaryX E (p_y p)) then
    let p1 := set_leached true p in
    let speed := leechSpeed drugAmount in
    match p_type p1, p_targetIdx p1 with
    | compound, Some _ =>
        match liveTarget cs p1 with
        | Some tgt => headTo tgt speed p1
        | None => pushIntoMuscle speed p1
        end
    | _, _ => pushIntoMuscle speed p1
    end
  else
    let dxdy := vesselTangentDerivative E (p_y p) in
    let dir := normalized E (-1) (- dxdy) in
    let flow :=
      set_vel (fst dir * vesselSpeed drugAmount)
        (snd dir * vesselSpeed drugAmount) p in
    match p_type p, p_targetIdx p with
    | compound, Some t =>
        match cs !! t with
        | Some tgt =>
            let tdir := normalized E (c_x tgt - p_x p) (c_y tgt - p_y p) in
            let alpha := default 0.9 (p_steerAggression p) in
            let mixX := fst dir * (1 - alpha) + fst tdir * alpha in
            let mixY := snd dir * (1 - alpha) + snd tdir * alpha in
            let nd := normalized E mixX mixY in
            let speed := vesselSpeed drugAmount * (1 + (alpha - 0.5) * 0.4) in
            set_vel (fst nd * speed) (snd nd * speed) p
        | None => flow
        end
    | _, _ => flow
    end.

Definition transport (drugAmount : Q) (cs : list cell) (p : particle)
  : particle :=
  vesselStep drugAmount cs
    (move (steerCompound drugAmount cs (steerY drugAmount cs p))).

(** *** Interaction (the second half of the particle loop) *)

(** The object literals pushed to [spawned]. *)
Definition newY_idle (x y : Q) (parentIdx : nat) : particle :=
  mkParticle x y 0 0 Y true None (Some parentIdx) true false (Some 80%Z)
    None false.

Definition newY_seek (x y vx vy : Q) (targetIdx parentIdx : nat) : particle :=
  mkParticle x y vx vy Y true (Some targetIdx) (Some parentIdx) false false
    (Some 220%Z) None false.

(** The first site [c] in array order with [c.state === 1] and
    [Math.hypot(c.x - part.x, c.y - part.y) <= c.size + margin]. *)
Fixpoint findContact (margin x y : Q) (cs : list cell) (cIdx : nat)
  : option (nat * cell) :=
  match cs with
  | [] => None
  | c :: cs' =>
      if is_tumor c
         && Num.leb (hypot (Math E) (c_x c - x) (c_y c - y)) (c_size c + margin)
      then Some (cIdx, c)
      else findContact margin x y cs' (S cIdx)
  end.

(** [arr[Math.floor(r * arr.length)]]. *)
Definition pickAt (arr : list nat) (r : Q) : option nat :=
  let k := Num.floor (r * inject_Z (Z.of_nat (length arr))) in
  if (k <? 0)%Z then None else arr !! Z.to_nat k.

(** The cascade, written out three times in the script: with probability
    30%, one tumor neighbour of site [idx], drawn at random, is killed. *)
Definition cascadeKill (idx : nat) : sim unit :=
  cs <- get_cells ;;
  let neighborIdxs := neighborTumorIndicesForCellIdx E cs idx in
  if (0 <? length neighborIdxs)%nat then
    r <- Math_random ;;
    if Num.ltb r 0.30 then
      r' <- Math_random ;;
      match pickAt neighborIdxs r' with
      | Some pick =>
          match cs !! pick with
          | Some pc => if is_tumor pc then kill_cell pick else ret tt
          | None => ret tt
          end
      | None => ret tt
      end
    else ret tt
  else ret tt.

(** Round [k] of the loop [for(let k=0;k<4;k++)]; [c] is the contacted
    site, already killed, and [neighborTumors] its tumor neighbours at that
    moment.  The two lookups that cannot fail (the round-robin index is in
    range, and the indices of [neighborTumors] are sites) end the round. *)
Definition split_one (cIdx : nat) (c : cell) (neighborTumors : list nat)
    (k : nat) : sim unit :=
  r1 <- Math_random ;;
  let rx := c_x c + (r1 - 0.5) * c_size c * 0.45 in
  r2 <- Math_random ;;
  let ry := c_y c + (r2 - 0.5) * c_size c * 0.45 in
  r3 <- Math_random ;;
  let sp := 0.9 + r3 * 0.4 in
  if (0 <? length neighborTumors)%nat then
    match neighborTumors !! (k mod length neighborTumors)%nat with
    | None => ret tt
    | Some tIdx =>
        cs <- get_cells ;;
        match cs !! tIdx with
        | None => ret tt
        | Some t =>
            if is_tumor t then
              kill_cell tIdx ;;
              cascadeKill tIdx ;;
              let t' := killed t in
              r4 <- Math_random ;;
              r5 <- Math_random ;;
              spawned_push
                (newY_idle (c_x t' + (r4 - 0.5) * c_size t' * 0.4)
                   (c_y t' + (r5 - 0.5) * c_size t' * 0.4) cIdx)
            else
              let dir := normalized E (c_x t - rx) (c_y t - ry) in
              spawned_push
                (newY_seek rx ry (fst dir * sp) (snd dir * sp) tIdx cIdx)
        end
    end
  else
    cs <- get_cells ;;
    let bestIdx := nearestTumor cs rx ry in
    if (0 <=? bestIdx)%Z then
      match cs !! Z.to_nat bestIdx with
      | Some t =>
          let dir := normalized E (c_x t - rx) (c_y t - ry) in
          spawned_push
            (newY_seek rx ry (fst dir * sp) (snd dir * sp)
               (Z.to_nat bestIdx) cIdx)
      | None => ret tt
      end
    else spawned_push (newY_idle rx ry cIdx).

(** The scan of a leached compound over all sites; on the first contact
    the site is killed, four Y particles are spawned and the compound is
    marked dead. *)
Definition compoundContact (p : particle) : sim particle :=
  cs <- get_cells ;;
  match findContact 9 (p_x p) (p_y p) cs 0 with
  | None => ret p
  | Some (cIdx, c) =>
      kill_cell cIdx ;;
      cs' <- get_cells ;;
      let neighborTumors := neighborTumorIndicesForCellIdx E cs' cIdx in
      for_each [0; 1; 2; 3]%nat (split_one cIdx (killed c) neighborTumors) ;;
      ret (set_dead true p)
  end.

(** The block [if(part.type === 'Y'){ ... }]. *)
Definition yContact (p : particle) : sim particle :=
  match p_targetIdx p with
  | Some targetIdx =>
      cs <- get_cells ;;
      match cs !! targetIdx with
      | Some tgt =>
          if is_tumor tgt then
            let d := hypot (Math E) (c_x tgt - p_x p) (c_y tgt - p_y p) in
            if Num.leb d (c_size tgt + 10) then
              kill_cell targetIdx ;;
              cs' <- get_cells ;;
              match p_parentIdx p with
              | Some parentIdx =>
                  match cs' !! parentIdx with
                  | Some pc =>
                      if is_tumor pc then kill_cell parentIdx else ret tt
                  | None => ret tt
                  end
              | None => ret tt
              end ;;
              cascadeKill targetIdx ;;
              ret (set_dead true p)
            else ret p
          else ret (set_dead true p)
      | None => ret (set_dead true p)
      end
  | None =>
      cs <- get_cells ;;
      match findContact 10 (p_x p) (p_y p) cs 0 with
      | Some (cIdx, _) =>
          kill_cell cIdx ;;
          cascadeKill cIdx ;;
          ret (set_dead true p)
      | None => ret p
      end
  end.

Definition offCanvas (p : particle) : bool :=
  Num.ltb (p_x p) (-40)
  || Num.ltb (inject_Z (canvas_width E) + 40) (p_x p)
  || Num.ltb (p_y p) (-40)
  || Num.ltb (inject_Z (canvas_height E) + 40) (p_y p).

(** The block [if(part.type === 'compound' && part.leached){ ... }].  Its
    closing brace is the one before the comment "append spawned
    particles": the block contains the scan of the compound, the block of
    the Y particles, the death of wandering particles and the removal of
    particles that left the canvas. *)
Definition interaction (p : particle) : sim particle :=
  match p_type p, p_leached p with
  | compound, true =>
      p1 <- compoundContact p ;;
      p2 <- match p_type p1 with
            | Y => yContact p1
            | compound => ret p1
            end ;;
      p3 <- (if p_wander p2 then
               r <- Math_random ;;
               ret (if Num.ltb r 0.015 then set_dead true p2 else p2)
             else ret p2) ;;
      ret (if offCanvas p3 then set_dead true p3 else p3)
  | _, _ => ret p
  end.

(** *** The end of a round of the particle loop *)

(** [particles = particles.concat(...)], capped at [MAX_PARTICLES]. *)
Definition appendSpawned : sim unit :=
  fun w =>
    let ps := particles w in
    let sp := spawned w in
    if (MAX_PARTICLES <? length ps + length sp)%nat then
      let allowed := (MAX_PARTICLES - length ps)%nat in
      (tt, with_particles (ps ++ take allowed sp) w)
    else (tt, with_particles (ps ++ sp) w).

Definition isDead (h : gmap positive particle) (r : positive) : bool :=
  match h !! r with
  | Some p => p_dead p
  | None => false
  end.

(** [particles = particles.filter(p => !p.dead)]. *)
Definition purge : sim unit :=
  fun w =>
    (tt, with_particles
           (filter (fun r => isDead (heap w) r = false) (particles w)) w).

Definition put_particle (r : positive) (p : particle) : sim unit :=
  fun w => (tt, with_heap (<[r := p]> (heap w)) w).

(** One round of [for(let i=0;i<particles.length;i++)], for [part =
    particles[i]].  The properties of [part] are kept in a local copy and
    written back to the object before the arrays are read again; no other
    statement of the round reads or writes that object.  The statement
    [continue] of the expired particle skips the rest of the round,
    including the append and the filter. *)
Definition iteration (drugAmount : Q) (i : nat) : sim unit :=
  fun w =>
    match particles w !! i with
    | None => (tt, w)
    | Some r =>
        match heap w !! r with
        | None => (tt, w)
        | Some part =>
            let ttl := match p_ttl part with
                       | None => 300%Z
                       | Some t => (t - 1)%Z
                       end in
            let part := set_ttl ttl part in
            if (ttl <=? 0)%Z then put_particle r (set_dead true part) w
            else
              (cs <- get_cells ;;
               part' <- interaction (transport drugAmount cs part) ;;
               put_particle r part' ;;
               appendSpawned ;;
               purge) w
        end
    end.

(** The particle loop; [None] when the fuel runs out. *)
Fixpoint particleLoop (fuel : nat) (drugAmount : Q) (i : nat) (w : world)
  : option world :=
  if (i <? length (particles w))%nat then
    match fuel with
    | O => None
    | S fuel' =>
        particleLoop fuel' drugAmount (S i) (exec (iteration drugAmount i) w)
    end
  else Some w.

(** [stepSimulation()], with the values of the two sliders it reads.  The
    function declared after the loop, [interactWithWall], is never called;
    the last statement assigns [window.spawnDrugParticles]. *)
Definition stepSimulation (growthRate drugAmount : Q) (w : world)
  : option world :=
  let w1 := with_spawned [] (exec (growth growthRate) w) in
  let fuel := S (Nat.max MAX_PARTICLES (length (particles w1))) in
  match particleLoop fuel drugAmount 0 w1 with
  | Some w2 => Some (with_spawn_installed true w2)
  | None => None
  end.

(** *** Dosing *)

(** The two object literals pushed to [particles]. *)
Definition newCompound_targeted (x y vx vy : Q) (targetIdx : nat)
  : particle :=
  mkParticle x y vx vy compound false (Some targetIdx) None false false
    (Some 400%Z) (Some 0.92) false.

Definition newCompound_wander (x y vx vy : Q) : particle :=
  mkParticle x y vx vy compound false None None false true (Some 120%Z)
    None false.

(** One round of the loop of [spawnDrugParticles]. *)
Definition spawn_one (amount : Q) : sim unit :=
  r1 <- Math_random ;;
  let y := r1 * inject_Z (canvas_height E) in
  let boundaryX := vesselBoundaryX E y in
  r2 <- Math_random ;;
  let x := boundaryX + 4 + r2 * (inject_Z (canvas_width E) - boundaryX - 4) in
  r3 <- Math_random ;;
  let wanderChance := 0.02 + r3 * 0.01 in
  r4 <- Math_random ;;
  let wander := Num.ltb r4 wanderChance in
  cs <- get_cells ;;
  let bestIdx := nearestTumor cs x y in
  match (if wander then None
         else if (0 <=? bestIdx)%Z then cs !! Z.to_nat bestIdx else None) with
  | Some best =>
      let dirTo := normalized E (c_x best - x) (c_y best - y) in
      r5 <- Math_random ;;
      let speed := vesselSpeedBase * (1 + amount / 80) * (0.95 + r5 * 0.2) in
      particles_push
        (newCompound_targeted x y (fst dirTo * speed) (snd dirTo * speed)
           (Z.to_nat bestIdx))
  | None =>
      r5 <- Math_random ;;
      let ang := r5 * PI (Math E) * 2 in
      r6 <- Math_random ;;
      let sp := (vesselSpeedBase * 0.6) * (0.6 + r6 * 0.8) in
      particles_push
        (newCompound_wander x y (cos (Math E) ang * sp) (sin (Math E) ang * sp))
  end.

(** The number of compounds of a dose: [Math.max(1, Math.round(amount))]. *)
Definition toSpawn (amount : Q) : Z := Z.max 1 (Num.round amount).

(** [window.spawnDrugParticles(dose)]; [None] stands for a dose whose
    [Number(dose)] is [NaN]. *)
Definition spawnDrugParticles (dose : option Q) : sim unit :=
  match dose with
  | None => ret tt
  | Some amount =>
      if Num.eqb amount 0 || Num.leb amount 0 then ret tt
      else for_each (seq 0 (Z.to_nat (toSpawn amount)))
             (fun _ => spawn_one amount)
  end.

(** [giveDose()], with the value of the drug slider.  Before the first
    tick [spawnDrugParticles] is not defined and the call throws. *)
Definition giveDose (drugAmount : Q) (w : world) : world :=
  if Num.leb drugAmount 0 then w
  else if spawn_installed w then exec (spawnDrugParticles (Some drugAmount)) w
  else w.

(** *** The grid and its seeding *)

Definition initCells_row (iy : nat) : list cell :=
  map (fun ix => mkCell (spacing / 2 + inject_Z (Z.of_nat ix) * spacing)
                   (spacing / 2 + inject_Z (Z.of_nat iy) * spacing) 0 0)
    (seq 0 (Z.to_nat (cols E))).

Definition initCells_cells : list cell :=
  concat (map initCells_row (seq 0 (Z.to_nat (rows E)))).

Definition initCells : sim unit :=
  fun w => (tt, with_cells initCells_cells w).

(** [t = neigh[i]; neigh[i] = neigh[j]; neigh[j] = t], for [j] within the
    array (as it is when [Math.random] is in [0, 1)). *)
Definition swap {A} (i j : nat) (l : list A) : list A :=
  match l !! i, l !! j with
  | Some a, Some b => <[j := a]> (<[i := b]> l)
  | _, _ => l
  end.

(** The shuffle of the neighbour list: [i] runs from [length - 1] down
    to [1]; [idxs] lists these values. *)
Fixpoint shuffle {A} (idxs : list nat) (l : list A) : sim (list A) :=
  match idxs with
  | [] => ret l
  | i :: is' =>
      r <- Math_random ;;
      let j := Num.floor (r * inject_Z (Z.of_nat (i + 1))) in
      shuffle is' (swap i (Z.to_nat j) l)
  end.

(** The queue, the set [seen] and the counter [seeded] of [seedInitial]. *)
Record seeding : Type := mkSeeding {
  s_q : list Z;
  s_seen : gset Z;
  s_seeded : Z
}.

(** [for(const [nx,ny] of neigh){ ... }]. *)
Fixpoint pushNeighbors (neigh : list (Z * Z)) (s : seeding) : seeding :=
  match neigh with
  | [] => s
  | (nx, ny) :: neigh' =>
      let nidx := cellIndex E nx ny in
      if (0 <=? nidx)%Z && negb (bool_decide (nidx ∈ s_seen s)) then
        pushNeighbors neigh'
          (mkSeeding (s_q s ++ [nidx]) ({[nidx]} ∪ s_seen s) (s_seeded s))
      else pushNeighbors neigh' s
  end.

(** One round of the [while] loop, for the dequeued index [idx]; [s] holds
    the rest of the queue. *)
Definition seed_round (idx : Z) (s : seeding) : sim seeding :=
  cs <- get_cells ;;
  if ((idx <? 0) || (Z.of_nat (length cs) <=? idx))%Z then ret s
  else
    match cs !! Z.to_nat idx with
    | None => ret s
    | Some c =>
        if isInVesselXY E (c_x c) (c_y c) then ret s
        else
          s' <- (if (c_state c =? 0)%Z then
                   r <- Math_random ;;
                   set_cell (Z.to_nat idx)
                     (mkCell (c_x c) (c_y c) 1 (12 + r * 10)) ;;
                   ret (mkSeeding (s_q s) (s_seen s) (s_seeded s + 1))
                 else ret s) ;;
          let ix := gridX c in
          let iy := gridY c in
          let neigh := map (fun o => (ix + fst o, iy + snd o)%Z) offsets8 in
          neigh' <- shuffle (rev (seq 1 (length neigh - 1))) neigh ;;
          ret (pushNeighbors neigh' s')
    end.

(** [while(q.length>0 && seeded < targetCount){ ... }]; the boolean tells
    whether the loop ended before the fuel ran out. *)
Fixpoint seedLoop (fuel : nat) (targetCount : Z) (s : seeding) : sim bool :=
  match s_q s with
  | [] => ret true
  | idx :: q' =>
      if (s_seeded s <? targetCount)%Z then
        match fuel with
        | O => ret false
        | S fuel' =>
            s' <- seed_round idx (mkSeeding q' (s_seen s) (s_seeded s)) ;;
            seedLoop fuel' targetCount s'
        end
      else ret true
  end.

Definition targetCount (startAmount : Q) : Z :=
  let pct := Num.max 0 (Num.min 100 startAmount) in
  Z.max 3 (Num.round ((pct / 100) * 45)).

(** [seedInitial()], with the value of the start slider. *)
Definition seedInitial (startAmount : Q) : sim bool :=
  (fun w => (tt, with_cells (map killed (cells w)) w)) ;;
  r <- Math_random ;;
  let yc := inject_Z (canvas_height E) * (0.35 + r * 0.3) in
  let bx := vesselBoundaryX E yc in
  let xc := Num.max spacing (bx - spacing * 3) in
  let centerIx := Num.round ((xc - spacing / 2) / spacing) in
  let centerIy := Num.round ((yc - spacing / 2) / spacing) in
  cs <- get_cells ;;
  let startIdx :=
    if (0 <=? cellIndex E centerIx centerIy)%Z
    then cellIndex E centerIx centerIy
    else (Z.of_nat (length cs) / 2)%Z in
  seedLoop (S (S (Z.to_nat (rows E * cols E)))) (targetCount startAmount)
    (mkSeeding [startIdx] {[startIdx]} 0).

(** *** The controls *)

(** The state after the script has been loaded: [initCells(); draw()]. *)
Definition loaded : world :=
  mkWorld initCells_cells ∅ 1%positive [] [] 0 false false.

(** [start()], with the value of the start slider. *)
Definition start (startAmount : Q) (w : world) : option world :=
  if running w then Some w
  else
    let w1 := exec initCells (with_running true w) in
    let (finished, w2) := seedInitial startAmount w1 in
    if finished then Some (with_particles [] w2) else None.

(** [stop()]. *)
Definition stop (w : world) : world := with_running false w.

(** [tick()]: [stepSimulation(); draw()]; drawing does not change the
    state. *)
Definition tick (growthRate drugAmount : Q) (w : world) : option world :=
  stepSimulation growthRate drugAmount w.

End Simulation.

(** ** A concrete host

    The general results below hold for every host.  To run the script on
    concrete states we fix one: fixed-point approximations of the functions
    of [Math] (four decimals, Taylor series for the sine and the cosine), a
    canvas of 400 by 300 pixels, and a linear congruential sequence, kept to
    eight bits, for [Math.random]. *)

Module Host.

Local Open Scope Q_scope.

Definition fix4 (q : Q) : Q := Qred (Qmake (Qfloor (q * 1e4)) 10000).

Definition hypot4 (a b : Q) : Q :=
  let a' := Qfloor (a * 1e4) in
  let b' := Qfloor (b * 1e4) in
  Qred (Qmake (Z.sqrt (a' * a' + b' * b')) 10000).

Definition pi4 : Q := 3.1416.

Definition reduce (t : Q) : Q :=
  fix4 (t - 2 * pi4 * inject_Z (Qfloor ((t + pi4) / (2 * pi4)))).

Definition clamp (q : Q) : Q := Num.max (-1) (Num.min 1 q).

Fixpoint series (n : nat) (k : Z) (term acc t2 : Q) : Q :=
  match n with
  | O => acc
  | S n' =>
      let term' := fix4 (- term * t2 / inject_Z ((k + 1) * (k + 2))) in
      series n' (k + 2) term' (fix4 (acc + term')) t2
  end.

Definition sin4 (t : Q) : Q :=
  let r := reduce t in clamp (series 10 1 r r (fix4 (r * r))).

Definition cos4 (t : Q) : Q :=
  let r := reduce t in clamp (series 10 0 1 1 (fix4 (r * r))).

Definition math : MathLib :=
  {| hypot := hypot4; sin := sin4; cos := cos4; PI := pi4 |}.

Definition lcg (k : nat) : Q :=
  Qred (Qmake (((1103515245 * Z.of_nat k + 12345) mod 2147483648) / 8388608)
          256).

Definition E : env :=
  {| Math := math; canvas_width := 400; canvas_height := 300; phase := 1;
     random := lcg |}.

(** Site 100 is the site of column 12 and row 4, well inside the muscle. *)
Definition site : nat := 100.

Definition site_x : Q := 9 + 12 * 18.
Definition site_y : Q := 9 + 4 * 18.

(** The grid with a single tumor, of size 12, at [site]. *)
Definition one_tumor : list cell :=
  <[site := mkCell site_x site_y 1 12]> (initCells_cells E).

(** A running simulation with that grid and a single particle [p]. *)
Definition world_with (p : particle) : world :=
  mkWorld one_tumor {[1%positive := p]} 2%positive [1%positive] [] 0 true
    true.

(** A Y particle sitting on its live target, as spawned by a split. *)
Definition y_on_target : particle :=
  newY_seek site_x site_y 0 0 site site.

(** A leached compound sitting on the tumor. *)
Definition compound_on_tumor : particle :=
  mkParticle site_x site_y 0 0 compound true (Some site) None false false
    (Some 300%Z) (Some 0.92) false.

(** The state after [start()] with the start slider at 20 and one tick
    with the growth slider at 0, and then thirteen doses with the drug
    slider at 100. *)
Definition started : world :=
  default (loaded E) (start E 20 (loaded E)).

Definition ticked : world := default started (tick E 0 100 started).

Definition dosed : world := Nat.iter 13 (giveDose E 100) ticked.

End Host.

(** * Properties *)

(** ** Reasoning about [sim] *)

(** [m] relates every state to the state it leaves behind. *)
Definition preserves {A} (R : relation world) (m : sim A) : Prop :=
  forall w, R w (snd (m w)).

Lemma preserves_ret {A} (R : relation world) `{!Reflexive R} (a : A) :
  preserves R (ret a).
Proof. intros w. simpl. reflexivity. Qed.

Lemma preserves_bind {A B} (R : relation world) `{!Transitive R}
    (m : sim A) (f : A -> sim B) :
  preserves R m -> (forall a, preserves R (f a)) -> preserves R (bind m f).
Proof.
  intros Hm Hf w. unfold bind. specialize (Hm w).
  destruct (m w) as [a w']. simpl in Hm.
  etransitivity; [exact Hm | apply Hf].
Qed.

Lemma preserves_for_each {A} (R : relation world) `{!PreOrder R}
    (l : list A) (f : A -> sim unit) :
  (forall a, preserves R (f a)) -> preserves R (for_each l f).
Proof.
  intros Hf. induction l as [|a l IH]; simpl.
  - apply preserves_ret; apply _.
  - apply preserves_bind; [apply _ | apply Hf | intros _; exact IH].
Qed.

Lemma preserves_map_m {A B} (R : relation world) `{!PreOrder R}
    (l : list A) (f : A -> sim B) :
  (forall a, preserves R (f a)) -> preserves R (map_m f l).
Proof.
  intros Hf. induction l as [|a l IH]; simpl.
  - apply preserves_ret; apply _.
  - apply preserves_bind; [apply _ | apply Hf | intros b].
    apply preserves_bind; [apply _ | exact IH | intros bs].
    apply preserves_ret; apply _.
Qed.


Create HintDb sim discriminated.

(** Splits a goal [preserves R m] along the syntax of [m]; the leaves are
    left to the hints of [sim]. *)
Ltac sim_step :=
  lazymatch goal with
  | |- preserves _ (bind _ _) =>
      apply preserves_bind; [apply _ | | intros ?]
  | |- preserves _ (ret _) => apply preserves_ret; apply _
  | |- preserves _ (for_each _ _) =>
      apply preserves_for_each; [apply _ | intros ?]
  | |- preserves _ (map_m _ _) =>
      apply preserves_map_m; [apply _ | intros ?]
  | |- preserves _ (let _ := _ in _) => cbv zeta
  | |- preserves _ (if ?b then _ else _) => destruct b
  | |- preserves _ (match ?x with _ => _ end) => destruct x
  | |- preserves _ _ => solve [auto with sim]
  end.

Ltac sim_auto := repeat sim_step.

(** ** Vector normalisation *)

Section Normalized.

Variable E : env.

Local Open Scope Q_scope.

Lemma normalized_m_nonzero vx vy : ~ normalized_m E vx vy == 0.
Proof. unfold normalized_m. apply Num.or_else_nonzero. discriminate. Qed.

(** C10, as the script has it: [normalized] never divides by zero, its
    divisor being [Math.hypot(vx, vy) || 1]; the result is the quotient of
    the vector by that divisor, and for the zero vector it is the zero
    vector. *)
Theorem normalized_guarded (vx vy : Q) :
  ~ normalized_m E vx vy == 0
  /\ normalized E vx vy
     = (vx / normalized_m E vx vy, vy / normalized_m E vx vy)
  /\ fst (normalized E 0 0) == 0
  /\ snd (normalized E 0 0) == 0.
Proof.
  split; [apply normalized_m_nonzero|].
  split; [reflexivity|].
  unfold normalized; simpl. split; unfold Qdiv; ring.
Qed.

End Normalized.

(** C10, as the specification has it, fails: for the zero vector the result
    is not a unit vector. *)
Lemma normalized_zero_not_unit :
  let v := normalized Host.E 0 0 in
  ~ (fst v * fst v + snd v * snd v == 1)%Q.
Proof. vm_compute. discriminate. Qed.

(** ** The growth probability *)

Section GrowthProb.

Local Open Scope Q_scope.







End GrowthProb.


(** ** What the passes leave unchanged *)

Definition same_cells : relation world :=
  fun w w' => cells w' = cells w.

Definition same_particles : relation world :=
  fun w w' => particles w' = particles w.

(** Every tumor site of [w] is the same tumor site in [w']. *)
Definition tumors_kept : relation world :=
  fun w w' =>
    forall i c, cells w !! i = Some c -> is_tumor c = true ->
                cells w' !! i = Some c.

(** The sites of [w'] are those of [w], at the same positions, and some
    tumor sites of [w] may be healthy in [w']. *)
Definition shrunk (c c' : cell) : Prop :=
  c_x c' = c_x c /\ c_y c' = c_y c /\ (is_tumor c' = true -> is_tumor c = true).

Definition cells_shrink : relation world :=
  fun w w' => Forall2 shrunk (cells w) (cells w').

#[export] Instance same_cells_preorder : PreOrder same_cells.
Proof.
  split; [intros w; reflexivity|].
  intros a b c H1 H2. unfold same_cells in *. congruence.
Qed.

#[export] Instance same_particles_preorder : PreOrder same_particles.
Proof.
  split; [intros w; reflexivity|].
  intros a b c H1 H2. unfold same_particles in *. congruence.
Qed.

#[export] Instance tumors_kept_preorder : PreOrder tumors_kept.
Proof.
  split; [intros w i c H _; exact H|].
  intros a b c H1 H2 i x Hx Ht. apply H2; [apply H1|]; assumption.
Qed.

Lemma shrunk_refl c : shrunk c c.
Proof. repeat split; auto. Qed.

Lemma shrunk_trans a b c : shrunk a b -> shrunk b c -> shrunk a c.
Proof.
  intros (Hx & Hy & Ht) (Hx' & Hy' & Ht'). repeat split; try congruence.
  auto.
Qed.

Lemma shrunk_killed c : shrunk c (killed c).
Proof. repeat split; simpl; auto. discriminate. Qed.

#[export] Instance cells_shrink_preorder : PreOrder cells_shrink.
Proof.
  split.
  - intros w. apply Forall2_same_length_lookup. split; [reflexivity|].
    intros i x y Hx Hy. rewrite Hx in Hy. injection Hy as <-. apply shrunk_refl.
  - intros a b c H1 H2. unfold cells_shrink in *.
    revert H2. generalize (cells c). induction H1 as [|x y l l' Hxy H IH];
      intros l'' H2; inversion H2; subst; constructor.
    + eapply shrunk_trans; eassumption.
    + apply IH. assumption.
Qed.

Lemma same_cells_shrink w w' : same_cells w w' -> cells_shrink w w'.
Proof.
  unfold same_cells, cells_shrink. intros ->.
  apply (@reflexivity _ cells_shrink _ w).
Qed.

Lemma same_cells_kept w w' : same_cells w w' -> tumors_kept w w'.
Proof. unfold same_cells, tumors_kept. intros -> i c H _. exact H. Qed.

Lemma preserves_weaken {A} (R R' : relation world) (m : sim A) :
  (forall w w', R w w' -> R' w w') -> preserves R m -> preserves R' m.
Proof. intros HR Hm w. apply HR, Hm. Qed.

Lemma alter_killed_shrink (cs : list cell) (i : nat) :
  Forall2 shrunk cs (alter killed i cs).
Proof.
  apply Forall2_same_length_lookup. split; [by rewrite length_alter|].
  intros j x y Hx Hy. rewrite list_lookup_alter in Hy.
  destruct (decide (i = j)) as [->|Hne].
  - rewrite Hx in Hy. simpl in Hy. injection Hy as <-. apply shrunk_killed.
  - rewrite Hx in Hy. injection Hy as <-. apply shrunk_refl.
Qed.

Section Frames.

Variable E : env.

Lemma random_same_cells : preserves same_cells (Math_random E).
Proof. intros w. reflexivity. Qed.

Lemma random_same_particles : preserves same_particles (Math_random E).
Proof. intros w. reflexivity. Qed.

Lemma get_cells_same_cells : preserves same_cells get_cells.
Proof. intros w. reflexivity. Qed.

Lemma get_cells_same_particles : preserves same_particles get_cells.
Proof. intros w. reflexivity. Qed.

Lemma set_cell_same_particles i c : preserves same_particles (set_cell i c).
Proof. intros w. reflexivity. Qed.

Lemma kill_cell_same_particles i : preserves same_particles (kill_cell i).
Proof. intros w. reflexivity. Qed.

Lemma kill_cell_shrink i : preserves cells_shrink (kill_cell i).
Proof. intros w. apply alter_killed_shrink. Qed.

Lemma spawned_push_same_cells p : preserves same_cells (spawned_push p).
Proof. intros w. reflexivity. Qed.

Lemma spawned_push_same_particles p :
  preserves same_particles (spawned_push p).
Proof. intros w. reflexivity. Qed.

Lemma particles_push_same_cells p : preserves same_cells (particles_push p).
Proof. intros w. reflexivity. Qed.

Lemma put_particle_same_cells r p : preserves same_cells (put_particle r p).
Proof. intros w. reflexivity. Qed.

Lemma put_particle_same_particles r p :
  preserves same_particles (put_particle r p).
Proof. intros w. reflexivity. Qed.

Lemma appendSpawned_same_cells : preserves same_cells appendSpawned.
Proof. intros w. unfold appendSpawned. by destruct (_ <? _)%nat. Qed.

Lemma purge_same_cells : preserves same_cells purge.
Proof. intros w. reflexivity. Qed.

End Frames.

#[export] Hint Resolve random_same_cells random_same_particles
  get_cells_same_cells get_cells_same_particles set_cell_same_particles
  kill_cell_same_particles kill_cell_shrink spawned_push_same_cells
  spawned_push_same_particles particles_push_same_cells
  put_particle_same_cells put_particle_same_particles
  appendSpawned_same_cells purge_same_cells : sim.

(** A pass that leaves the sites unchanged shrinks them and keeps the
    tumors. *)
#[export] Hint Extern 5 (preserves cells_shrink _) =>
  apply (preserves_weaken same_cells cells_shrink);
    [exact same_cells_shrink | solve [auto with sim]] : sim.

#[export] Hint Extern 5 (preserves tumors_kept _) =>
  apply (preserves_weaken same_cells tumors_kept);
    [exact same_cells_kept | solve [auto with sim]] : sim.

(** ** Growth never regresses *)

Section Growth.

Variable E : env.

Lemma growth_decide_same_cells rate cs i :
  preserves same_cells (growth_decide E rate cs i).
Proof. unfold growth_decide. sim_auto. Qed.

Lemma growth_newStates_same_cells rate :
  preserves same_cells (growth_newStates E rate).
Proof.
  unfold growth_newStates. sim_auto. apply growth_decide_same_cells.
Qed.

Lemma growth_apply_at_kept ns i :
  preserves tumors_kept (growth_apply_at E ns i).
Proof.
  intros w. unfold growth_apply_at, bind, get_cells.
  destruct (ns !! i) as [n|]; [|apply (@reflexivity _ tumors_kept _)].
  destruct (cells w !! i) as [c|] eqn:Hc;
    [|apply (@reflexivity _ tumors_kept _)].
  destruct ((n =? 1)%Z && (c_state c =? 0)%Z) eqn:Hg;
    [|apply (@reflexivity _ tumors_kept _)].
  simpl. intros j x Hx Ht. simpl.
  destruct (decide (i = j)) as [->|Hne].
  - rewrite Hc in Hx. injection Hx as <-.
    apply andb_true_iff in Hg as [_ Hs]. unfold is_tumor in Ht. lia.
  - by rewrite list_lookup_insert_ne.
Qed.

Lemma growth_kept rate : preserves tumors_kept (growth E rate).
Proof.
  unfold growth. sim_auto.
  - apply (preserves_weaken same_cells tumors_kept);
      [exact same_cells_kept | apply growth_newStates_same_cells].
  - apply growth_apply_at_kept.
Qed.

(** C6: the growth pass of a tick keeps every tumor site: a site that is
    Tumor before the pass is the same Tumor site after it, whatever the
    slider value and the outcomes of [Math.random]. *)
Theorem growth_monotone (growthRate : Q) (w : world) (i : nat) (c : cell) :
  cells w !! i = Some c -> is_tumor c = true ->
  cells (exec (growth E growthRate) w) !! i = Some c.
Proof. intros Hc Ht. exact (growth_kept growthRate w i c Hc Ht). Qed.

End Growth.

Lemma growth_monotone_witness :
  cells (exec (growth Host.E 50) (Host.world_with Host.y_on_target))
    !! Host.site
  = Some (mkCell Host.site_x Host.site_y 1 12).
Proof.
  apply (growth_monotone Host.E 50 (Host.world_with Host.y_on_target)
           Host.site (mkCell Host.site_x Host.site_y 1 12));
    vm_compute; reflexivity.
Defined.

(** ** The particle pass only kills sites, and only appends under the cap *)

Section ParticlePass.

Variable E : env.

Lemma cascadeKill_frames idx :
  preserves same_particles (cascadeKill E idx)
  /\ preserves cells_shrink (cascadeKill E idx).
Proof. split; unfold cascadeKill; sim_auto. Qed.

Lemma split_one_frames cIdx c nt k :
  preserves same_particles (split_one E cIdx c nt k)
  /\ preserves cells_shrink (split_one E cIdx c nt k).
Proof.
  split; unfold split_one; sim_auto; apply cascadeKill_frames.
Qed.

Lemma compoundContact_frames p :
  preserves same_particles (compoundContact E p)
  /\ preserves cells_shrink (compoundContact E p).
Proof.
  split; unfold compoundContact; sim_auto; apply split_one_frames.
Qed.

Lemma yContact_frames p :
  preserves same_particles (yContact E p)
  /\ preserves cells_shrink (yContact E p).
Proof.
  split; unfold yContact; sim_auto; apply cascadeKill_frames.
Qed.

Lemma interaction_frames p :
  preserves same_particles (interaction E p)
  /\ preserves cells_shrink (interaction E p).
Proof.
  split; unfold interaction; sim_auto;
    first [apply compoundContact_frames | apply yContact_frames].
Qed.

Lemma appendSpawned_length w :
  (length (particles (exec appendSpawned w))
   <= Nat.max MAX_PARTICLES (length (particles w)))%nat.
Proof.
  unfold exec, appendSpawned.
  destruct (Nat.ltb_spec MAX_PARTICLES
              (length (particles w) + length (spawned w))); simpl;
    rewrite length_app; [rewrite length_take|]; lia.
Qed.

Lemma purge_length w :
  (length (particles (exec purge w)) <= length (particles w))%nat.
Proof. unfold exec, purge. simpl. apply length_filter. Qed.

Lemma iteration_shrink drug i : preserves cells_shrink (iteration E drug i).
Proof.
  intros w. unfold iteration.
  destruct (particles w !! i) as [r|]; [|apply (@reflexivity _ cells_shrink _)].
  destruct (heap w !! r) as [part|]; [|apply (@reflexivity _ cells_shrink _)].
  cbv zeta. destruct (_ <=? 0)%Z.
  - apply (@reflexivity _ cells_shrink _ w).
  - revert w. change (preserves cells_shrink
      (cs <- get_cells ;;
       part' <- interaction E
                  (transport E drug cs
                     (set_ttl match p_ttl part with
                              | Some t => (t - 1)%Z
                              | None => 300%Z
                              end part)) ;;
       put_particle r part' ;; appendSpawned ;; purge)).
    sim_auto. apply interaction_frames.
Qed.

Lemma iteration_length drug i w :
  (length (particles (exec (iteration E drug i) w))
   <= Nat.max MAX_PARTICLES (length (particles w)))%nat.
Proof.
  unfold iteration, exec.
  destruct (particles w !! i) as [r|]; [|simpl; lia].
  destruct (heap w !! r) as [part|]; [|simpl; lia].
  cbv zeta. destruct (_ <=? 0)%Z; [simpl; lia|].
  unfold bind at 1. unfold get_cells at 1.
  unfold bind at 1.
  match goal with |- context [interaction E ?p w] =>
    pose proof (proj1 (interaction_frames p) w) as Hi;
    destruct (interaction E p w) as [part' w1] end.
  simpl in Hi. unfold same_particles in Hi.
  unfold bind. simpl.
  match goal with |- context [appendSpawned ?w2] =>
    pose proof (appendSpawned_length w2) as Ha;
    unfold exec in Ha; destruct (appendSpawned w2) as [[] w3] end.
  simpl in *. rewrite Hi in Ha.
  etransitivity; [apply length_filter | exact Ha].
Qed.

Lemma particleLoop_shrink fuel drug i w w' :
  particleLoop E fuel drug i w = Some w' -> cells_shrink w w'.
Proof.
  revert i w. induction fuel as [|fuel IH]; intros i w; simpl;
    destruct (i <? length (particles w))%nat; try discriminate.
  - intros [= <-]. apply (@reflexivity _ cells_shrink _).
  - intros H. apply IH in H.
    etransitivity; [apply iteration_shrink | exact H].
  - intros [= <-]. apply (@reflexivity _ cells_shrink _).
Qed.

Lemma particleLoop_length fuel drug i w w' :
  particleLoop E fuel drug i w = Some w' ->
  (length (particles w') <= Nat.max MAX_PARTICLES (length (particles w)))%nat.
Proof.
  revert i w. induction fuel as [|fuel IH]; intros i w; simpl;
    destruct (i <? length (particles w))%nat; try discriminate.
  - intros [= <-]. lia.
  - intros H. apply IH in H. pose proof (iteration_length drug i w). lia.
  - intros [= <-]. lia.
Qed.

(** The loop ends: the array never grows beyond the larger of the cap and
    its length at the start, and the index advances in every round. *)
Lemma particleLoop_terminates fuel drug i w :
  (Nat.max MAX_PARTICLES (length (particles w)) < fuel + i)%nat ->
  is_Some (particleLoop E fuel drug i w).
Proof.
  revert i w. induction fuel as [|fuel IH]; intros i w Hf; simpl;
    destruct (Nat.ltb_spec i (length (particles w))); try (by eexists).
  - lia.
  - apply IH. pose proof (iteration_length drug i w). lia.
Qed.

Lemma growth_same_particles rate : preserves same_particles (growth E rate).
Proof.
  unfold growth, growth_newStates, growth_apply_at. sim_auto.
  unfold growth_decide. sim_auto.
Qed.

(** A tick always completes. *)
Lemma stepSimulation_total growthRate drug w :
  is_Some (stepSimulation E growthRate drug w).
Proof.
  unfold stepSimulation. cbv zeta.
  match goal with |- context [particleLoop E ?f drug 0 ?w1] =>
    destruct (particleLoop_terminates f drug 0 w1) as [w2 ->];
      [lia | by eexists] end.
Qed.

(** C8, as the script has it: after a tick the number of particles is at
    most the larger of 1200 and the number at the start of the tick (a dose
    pushes its compounds without looking at the cap); and the append of
    each round admits a prefix of the spawned batch, which is exactly the
    [1200 - particles.length] first ones when the batch would exceed the
    cap. *)
Theorem particle_cap (growthRate drugAmount : Q) (w w' : world) :
  stepSimulation E growthRate drugAmount w = Some w' ->
  (length (particles w') <= Nat.max MAX_PARTICLES (length (particles w)))%nat
  /\ forall v : world,
       particles (exec appendSpawned v)
       = particles v
         ++ take (if (MAX_PARTICLES <? length (particles v) + length (spawned v))%nat
                  then MAX_PARTICLES - length (particles v)
                  else length (spawned v))%nat (spawned v).
Proof.
  intros H. split.
  - unfold stepSimulation in H. cbv zeta in H.
    destruct (particleLoop E _ drugAmount 0 _) as [w2|] eqn:Hl;
      [|discriminate].
    injection H as <-. apply particleLoop_length in Hl. simpl in *.
    pose proof (growth_same_particles growthRate w) as Hg.
    unfold same_particles in Hg. unfold exec in Hl. rewrite Hg in Hl.
    exact Hl.
  - intros v. unfold exec, appendSpawned.
    destruct (_ <? _)%nat; simpl; [reflexivity|].
    by rewrite firstn_all.
Qed.

End ParticlePass.

(** ** No tumor inside the vessel *)

(** A state property as a relation: if it holds before, it holds after. *)
Definition inv_rel (J : world -> Prop) : relation world :=
  fun w w' => J w -> J w'.

#[export] Instance inv_rel_preorder J : PreOrder (inv_rel J).
Proof. split; [intros w H; exact H | intros a b c H1 H2 H; auto]. Qed.

Lemma map_m_results {A B} (f : A -> sim B) (P : A -> B -> Prop) :
  (forall a w, P a (fst (f a w))) ->
  forall l w, Forall2 P l (fst (map_m f l w)).
Proof.
  intros Hf. induction l as [|a l IH]; intros w; simpl.
  - constructor.
  - unfold bind. specialize (Hf a w). destruct (f a w) as [b w1].
    specialize (IH w1). destruct (map_m f l w1) as [bs w2]. simpl in *.
    by constructor.
Qed.

Section VesselExclusion.

Variable E : env.

(** No site is Tumor and inside the vessel. *)
Definition safe (w : world) : Prop :=
  forall i c, cells w !! i = Some c -> is_tumor c = true ->
              isInVesselXY E (c_x c) (c_y c) = false.

Lemma safe_shrink w w' : cells_shrink w w' -> safe w -> safe w'.
Proof.
  intros Hs Hw i c' Hc' Ht. unfold cells_shrink in Hs.
  destruct (Forall2_lookup_r _ _ _ _ _ Hs Hc') as (c & Hc & Hx & Hy & Hst).
  rewrite Hx, Hy. apply (Hw i c Hc). auto.
Qed.

Lemma safe_same_cells w w' : same_cells w w' -> safe w -> safe w'.
Proof. unfold same_cells, safe. intros ->. auto. Qed.

(** An entry 1 of [newStates] is a tumor site or a site outside the
    vessel. *)
Definition decided (cs : list cell) (i : nat) (n : Z) : Prop :=
  n = 1%Z ->
  exists c, cs !! i = Some c
            /\ (is_tumor c = true \/ isInVesselXY E (c_x c) (c_y c) = false).

Lemma growth_decide_decided rate cs i w :
  decided cs i (fst (growth_decide E rate cs i w)).
Proof.
  unfold growth_decide, decided.
  destruct (cs !! i) as [c|] eqn:Hc; simpl; [|discriminate].
  destruct (is_tumor c) eqn:Ht; simpl; [eauto|].
  destruct (isInVesselXY E (c_x c) (c_y c)) eqn:Hv; simpl; [discriminate|].
  intros _. eauto.
Qed.

(** The loop that applies [newStates] keeps the positions of the sites
    and adds tumors outside the vessel only. *)
Definition applying (cs : list cell) (w : world) : Prop :=
  safe w
  /\ Forall2 (fun c c' => c_x c' = c_x c /\ c_y c' = c_y c) cs (cells w).

Lemma growth_apply_at_applying cs ns i :
  (forall j n, ns !! j = Some n -> decided cs j n) ->
  (forall j c, cs !! j = Some c -> is_tumor c = true ->
               isInVesselXY E (c_x c) (c_y c) = false) ->
  preserves (inv_rel (applying cs)) (growth_apply_at E ns i).
Proof.
  intros Hns Hcs w [Hsafe Hpos]. unfold growth_apply_at, bind, get_cells.
  destruct (ns !! i) as [n|] eqn:Hn; [|by split].
  destruct (cells w !! i) as [c|] eqn:Hc; [|by split].
  destruct ((n =? 1)%Z && (c_state c =? 0)%Z) eqn:Hg; [|by split].
  apply andb_true_iff in Hg as [Hn1 _]. apply Z.eqb_eq in Hn1. subst n.
  destruct (Hns i 1%Z Hn eq_refl) as (c0 & Hc0 & Hok).
  assert (c_x c = c_x c0 /\ c_y c = c_y c0) as [Hx Hy].
  { eapply Forall2_lookup_lr in Hpos; eauto. }
  assert (isInVesselXY E (c_x c) (c_y c) = false) as Hout.
  { rewrite Hx, Hy. destruct Hok as [Ht|Hv]; [eapply Hcs; eauto | exact Hv]. }
  simpl. split.
  - intros j x Hx' Ht. simpl in Hx'.
    destruct (decide (i = j)) as [->|Hne].
    + rewrite list_lookup_insert_eq in Hx'
        by (eapply lookup_lt_Some; eauto).
      injection Hx' as <-. exact Hout.
    + rewrite list_lookup_insert_ne in Hx' by done. eapply Hsafe; eauto.
  - simpl. apply Forall2_same_length_lookup. split.
    + rewrite length_insert. eapply Forall2_length; eauto.
    + intros j a b Ha Hb.
      destruct (decide (i = j)) as [->|Hne].
      * rewrite list_lookup_insert_eq in Hb
          by (eapply lookup_lt_Some; eauto).
        injection Hb as <-. simpl. rewrite Hc0 in Ha. injection Ha as <-.
        by split.
      * rewrite list_lookup_insert_ne in Hb by done.
        eapply Forall2_lookup_lr in Hpos; eauto.
Qed.

Lemma growth_safe rate : preserves (inv_rel safe) (growth E rate).
Proof.
  intros w Hsafe. unfold growth, bind.
  pose proof (growth_newStates_same_cells E rate w) as Hsame.
  assert (forall j n, fst (growth_newStates E rate w) !! j = Some n ->
                      decided (cells w) j n) as Hns.
  { intros j n Hj. unfold growth_newStates, bind, get_cells in Hj.
    pose proof (map_m_results (growth_decide E rate (cells w))
                  (decided (cells w))
                  (growth_decide_decided rate (cells w))
                  (seq 0 (length (cells w))) w) as HF.
    destruct (Forall2_lookup_r _ _ _ _ _ HF Hj) as (k & Hk & Hd).
    apply lookup_seq in Hk as [-> _]. exact Hd. }
  destruct (growth_newStates E rate w) as [ns w1]. simpl in *.
  unfold same_cells in Hsame. unfold get_cells.
  assert (applying (cells w) w1) as Happ.
  { split; [eapply safe_same_cells; eauto|]. rewrite Hsame.
    apply Forall2_same_length_lookup. split; [done|].
    intros i a b Ha Hb. rewrite Ha in Hb. by injection Hb as <-. }
  pose proof (preserves_for_each (inv_rel (applying (cells w)))
                (seq 0 (length (cells w1))) (growth_apply_at E ns)
                (fun i => growth_apply_at_applying (cells w) ns i Hns Hsafe)
                w1 Happ) as [H _].
  exact H.
Qed.

Lemma stepSimulation_safe growthRate drug w w' :
  stepSimulation E growthRate drug w = Some w' -> safe w -> safe w'.
Proof.
  unfold stepSimulation. cbv zeta.
  destruct (particleLoop E _ drug 0 _) as [w2|] eqn:Hl; [|discriminate].
  intros [= <-] Hsafe. apply particleLoop_shrink in Hl.
  pose proof (growth_safe growthRate w Hsafe) as Hg.
  intros i c Hc Ht.
  exact (safe_shrink _ w2 Hl Hg i c Hc Ht).
Qed.

End VesselExclusion.

(** ** The lattice *)

Section Lattice.

Variable E : env.

(** The site of column [ix] and row [iy] sits at this position. *)
Definition at_lattice (ix iy : Z) (c : cell) : Prop :=
  c_x c = (spacing / 2 + inject_Z ix * spacing)%Q
  /\ c_y c = (spacing / 2 + inject_Z iy * spacing)%Q.

(** The array lists the sites row by row: the site of index [i] is the
    site of column [i mod cols] and row [i / cols]. *)
Definition on_grid (cs : list cell) : Prop :=
  forall i c, cs !! i = Some c ->
    exists ix iy : Z,
      (0 <= ix < cols E)%Z /\ (0 <= iy < rows E)%Z
      /\ Z.of_nat i = (iy * cols E + ix)%Z /\ at_lattice ix iy c.

Lemma lookup_concat_uniform {A} (n : nat) (ls : list (list A)) i x :
  Forall (fun r => length r = n) ls ->
  concat ls !! i = Some x ->
  exists iy ix r,
    ls !! iy = Some r /\ r !! ix = Some x /\ i = (iy * n + ix)%nat.
Proof.
  intros Hls. revert i. induction Hls as [|r ls Hr Hls IH]; intros i Hi.
  - discriminate.
  - simpl in Hi. apply lookup_app_Some in Hi as [Hi|[Hge Hi]].
    + exists 0%nat, i, r. auto.
    + destruct (IH _ Hi) as (iy & ix & r' & H1 & H2 & H3).
      exists (S iy), ix, r'. repeat split; auto. simpl. lia.
Qed.

Lemma initCells_on_grid : on_grid (initCells_cells E).
Proof.
  intros i c Hi. unfold initCells_cells in Hi.
  apply (lookup_concat_uniform (Z.to_nat (cols E))) in Hi.
  - destruct Hi as (iy & ix & r & Hr & Hx & ->).
    apply list_lookup_fmap_Some in Hr as (iy' & -> & Hiy).
    apply lookup_seq in Hiy as [-> Hiy]. unfold initCells_row in Hx.
    apply list_lookup_fmap_Some in Hx as (ix' & -> & Hix).
    apply lookup_seq in Hix as [-> Hix]. simpl in *.
    exists (Z.of_nat ix), (Z.of_nat iy). repeat split; simpl; try lia.
  - apply Forall_forall. intros r Hr.
    apply list_elem_of_fmap in Hr as (iy & -> & _).
    unfold initCells_row. by rewrite length_map, length_seq.
Qed.

Lemma gridX_at_lattice ix iy c : at_lattice ix iy c -> gridX c = ix.
Proof.
  intros [Hx _]. unfold gridX. rewrite Hx.
  transitivity (Num.round (inject_Z ix)); [|apply Num.round_inject].
  unfold Num.round. apply Qfloor_comp. unfold spacing. field.
Qed.

Lemma gridY_at_lattice ix iy c : at_lattice ix iy c -> gridY c = iy.
Proof.
  intros [_ Hy]. unfold gridY. rewrite Hy.
  transitivity (Num.round (inject_Z iy)); [|apply Num.round_inject].
  unfold Num.round. apply Qfloor_comp. unfold spacing. field.
Qed.

(** Two indices are 8-adjacent when they are distinct and their columns
    and their rows differ by at most one. *)
Definition adjacent8 (a b : Z) : Prop :=
  a <> b
  /\ (Z.abs (a mod cols E - b mod cols E) <= 1)%Z
  /\ (Z.abs (a / cols E - b / cols E) <= 1)%Z.

Lemma adjacent8_sym a b : adjacent8 a b -> adjacent8 b a.
Proof. unfold adjacent8. intros (H1 & H2 & H3). repeat split; lia. Qed.

Lemma index_coords (ix iy : Z) :
  (0 <= ix < cols E)%Z ->
  ((iy * cols E + ix) mod cols E = ix
   /\ (iy * cols E + ix) / cols E = iy)%Z.
Proof.
  intros H. split.
  - rewrite Z.add_comm, Z.mod_add by lia. apply Z.mod_small. lia.
  - rewrite Z.add_comm, Z.div_add by lia. rewrite Z.div_small by lia. lia.
Qed.

(** A neighbour index computed by the script is 8-adjacent. *)
Lemma cellIndex_adjacent (ix iy : Z) (o : Z * Z) :
  (0 <= ix < cols E)%Z ->
  o ∈ offsets8 ->
  (0 <= cellIndex E (ix + o.1) (iy + o.2))%Z ->
  adjacent8 (iy * cols E + ix) (cellIndex E (ix + o.1) (iy + o.2)).
Proof.
  intros Hix Ho Hidx. unfold cellIndex in *.
  destruct (_ || _ || _ || _)%bool eqn:Hb; [lia|].
  repeat (apply orb_false_iff in Hb as [Hb ?]).
  assert (0 <= ix + o.1 < cols E)%Z as Hnx by lia.
  destruct (index_coords ix iy Hix) as [Hm Hd].
  destruct (index_coords (ix + o.1) (iy + o.2) Hnx) as [Hm' Hd'].
  unfold adjacent8. rewrite Hm, Hd, Hm', Hd'.
  assert ((Z.abs o.1 <= 1 /\ Z.abs o.2 <= 1 /\ (o.1 <> 0 \/ o.2 <> 0))%Z)
    as (Ho1 & Ho2 & Ho3).
  { unfold offsets8 in Ho. repeat (apply elem_of_cons in Ho as [->|Ho]);
      [simpl; lia ..|]. by apply elem_of_nil in Ho. }
  repeat split; [|lia|lia].
  intros Heq.
  pose proof (f_equal (fun z => z mod cols E)%Z Heq) as Em.
  pose proof (f_equal (fun z => z / cols E)%Z Heq) as Ed.
  simpl in Em, Ed. rewrite Hm, Hm' in Em. rewrite Hd, Hd' in Ed. lia.
Qed.

End Lattice.

(** ** The seeded cluster *)

Section Seeding.

Variable E : env.

Lemma swap_elem {A} (i j : nat) (l : list A) (x : A) :
  x ∈ swap i j l -> x ∈ l.
Proof.
  unfold swap. destruct (l !! i) as [a|] eqn:Ha; [|done].
  destruct (l !! j) as [b|] eqn:Hb; [|done].
  intros Hx. apply list_elem_of_lookup in Hx as [k Hk].
  apply list_lookup_insert_Some in Hk as [(_ & <- & _)|[_ Hk]].
  - eapply list_elem_of_lookup_2; eauto.
  - apply list_lookup_insert_Some in Hk as [(_ & <- & _)|[_ Hk]];
      eapply list_elem_of_lookup_2; eauto.
Qed.

Lemma shuffle_spec {A} (idxs : list nat) (l : list A) (w : world) :
  cells (snd (shuffle E idxs l w)) = cells w
  /\ forall x, x ∈ fst (shuffle E idxs l w) -> x ∈ l.
Proof.
  revert l w. induction idxs as [|i idxs IH]; intros l w; simpl.
  - auto.
  - unfold bind, Math_random. cbv zeta.
    match goal with |- context [shuffle E idxs ?l' ?w'] =>
      destruct (IH l' w') as [Hc Hx] end.
    split; [exact Hc|]. intros x Hin. eapply swap_elem, Hx, Hin.
Qed.

(** What [pushNeighbors] adds to the queue are indices of neighbours. *)
Lemma pushNeighbors_spec (neigh : list (Z * Z)) (s : seeding) :
  exists pushed,
    s_q (pushNeighbors E neigh s) = s_q s ++ pushed
    /\ forall x, x ∈ pushed ->
         (0 <= x)%Z /\ exists o, o ∈ neigh /\ x = cellIndex E o.1 o.2.
Proof.
  revert s. induction neigh as [|[nx ny] neigh IH]; intros s; simpl.
  - exists []. split; [by rewrite app_nil_r|]. intros x Hx.
    by apply elem_of_nil in Hx.
  - destruct ((0 <=? cellIndex E nx ny)%Z
              && negb (bool_decide (cellIndex E nx ny ∈ s_seen s))) eqn:Hg.
    + destruct (IH (mkSeeding (s_q s ++ [cellIndex E nx ny])
                      ({[cellIndex E nx ny]} ∪ s_seen s) (s_seeded s)))
        as (pushed & Hq & Hp).
      exists (cellIndex E nx ny :: pushed). simpl in Hq.
      split; [by rewrite Hq, <- app_assoc|].
      intros x Hx. apply elem_of_cons in Hx as [->|Hx].
      * apply andb_true_iff in Hg as [Hg _]. split; [lia|].
        exists (nx, ny). split; [left|done].
      * destruct (Hp x Hx) as (H0 & o & Ho & ->). split; [done|].
        exists o. split; [by right|done].
    + destruct (IH s) as (pushed & Hq & Hp). exists pushed.
      split; [done|]. intros x Hx.
      destruct (Hp x Hx) as (H0 & o & Ho & ->). split; [done|].
      exists o. split; [by right|done].
Qed.

(** Tumor sites, by index. *)
Definition tumor_idx (cs : list cell) (a : nat) : Prop :=
  exists c, cs !! a = Some c /\ is_tumor c = true.

(** Two tumor sites that are 8-adjacent are linked; a set of tumor sites
    is one 8-connected component when any two of them are related by the
    equivalence closure of [linked]. *)
Definition linked (cs : list cell) : relation nat :=
  fun a b =>
    tumor_idx cs a /\ tumor_idx cs b
    /\ adjacent8 E (Z.of_nat a) (Z.of_nat b).

Definition connected (cs : list cell) : relation nat :=
  clos_refl_sym_trans nat (linked cs).

Definition one_component (cs : list cell) : Prop :=
  forall a b, tumor_idx cs a -> tumor_idx cs b -> connected cs a b.

Lemma connected_mono (cs cs' : list cell) a b :
  (forall t, tumor_idx cs t -> tumor_idx cs' t) ->
  connected cs a b -> connected cs' a b.
Proof.
  intros Hm H. induction H as [a b (Ha & Hb & Hab)| | |].
  - apply rst_step. split; [|split]; auto.
  - apply rst_refl.
  - by apply rst_sym.
  - eapply rst_trans; eauto.
Qed.

(** The state of the loop of [seedInitial]: the sites are on the lattice,
    in state 0 or 1, no tumor is inside the vessel, the tumors are one
    component, and every queued index is 8-adjacent to a tumor (or there
    is no tumor yet and the queue holds the start index only). *)
Definition seeding_inv (cs : list cell) (q : list Z) : Prop :=
  on_grid E cs
  /\ (forall i c, cs !! i = Some c -> c_state c = 0%Z \/ c_state c = 1%Z)
  /\ (forall i c, cs !! i = Some c -> is_tumor c = true ->
                  isInVesselXY E (c_x c) (c_y c) = false)
  /\ one_component cs
  /\ (((forall a, ~ tumor_idx cs a) /\ (length q <= 1)%nat)
      \/ forall x, x ∈ q ->
           exists t, tumor_idx cs t /\ adjacent8 E (Z.of_nat t) x).

Lemma seeding_inv_tail cs idx q :
  seeding_inv cs (idx :: q) -> seeding_inv cs q.
Proof.
  intros (H1 & H2 & H3 & H4 & H5). repeat split; auto.
  destruct H5 as [[Hn Hl]|Hq].
  - left. split; [done|]. simpl in Hl. lia.
  - right. intros x Hx. apply Hq. by right.
Qed.

(** The effect of one round on a site outside the vessel: the site is a
    tumor afterwards (it was one, or it was healthy and is converted), and
    the indices pushed are neighbours of that site. *)
Lemma seeding_inv_round cs q (n : nat) c cs1 pushed :
  seeding_inv cs (Z.of_nat n :: q) ->
  cs !! n = Some c ->
  isInVesselXY E (c_x c) (c_y c) = false ->
  (cs1 = cs /\ is_tumor c = true)
  \/ (c_state c = 0%Z
      /\ exists sz, cs1 = <[n := mkCell (c_x c) (c_y c) 1 sz]> cs) ->
  (forall x, x ∈ pushed ->
     (0 <= x)%Z
     /\ exists o, o ∈ offsets8
                  /\ x = cellIndex E (gridX c + o.1) (gridY c + o.2)) ->
  seeding_inv cs1 (q ++ pushed).
Proof.
  intros (Hgrid & Hst & Hsafe & Hcomp & Hq) Hc Hout Hcs1 Hpushed.
  assert (n < length cs)%nat as Hn by (eapply lookup_lt_Some; eauto).
  (* the sites of [cs1], one by one *)
  assert (forall i c1, cs1 !! i = Some c1 ->
            (i = n /\ c_x c1 = c_x c /\ c_y c1 = c_y c /\ c_state c1 = 1%Z)
            \/ (i <> n /\ cs !! i = Some c1)) as Hlook.
  { intros i c1 Hi. destruct Hcs1 as [[-> Ht]|(H0 & sz & ->)].
    - destruct (decide (i = n)) as [->|Hne]; [left|right; done].
      rewrite Hc in Hi. injection Hi as <-. unfold is_tumor in Ht.
      repeat split; lia.
    - apply list_lookup_insert_Some in Hi as [(<- & <- & _)|[Hne Hi]].
      + left. by repeat split.
      + right. split; [done|exact Hi]. }
  assert (tumor_idx cs1 n) as Htn.
  { destruct Hcs1 as [[-> Ht]|(H0 & sz & ->)].
    - by exists c.
    - eexists. split; [by apply list_lookup_insert_eq|]. reflexivity. }
  assert (forall t, tumor_idx cs t -> tumor_idx cs1 t) as Hmono.
  { intros t (ct & Hct & Ht). destruct Hcs1 as [[-> _]|(H0 & sz & ->)].
    - by exists ct.
    - destruct (decide (t = n)) as [->|Hne]; [exact Htn|].
      exists ct. split; [|done]. by rewrite list_lookup_insert_ne. }
  assert (forall t, tumor_idx cs1 t -> t = n \/ tumor_idx cs t) as Hback.
  { intros t (ct & Hct & Ht). destruct (Hlook t ct Hct) as [[-> _]|[_ H]].
    - by left.
    - right. by exists ct. }
  destruct (Hgrid n c Hc) as (ix & iy & Hix & Hiy & Hidx & Hlat).
  assert (forall x, x ∈ pushed -> adjacent8 E (Z.of_nat n) x) as Hadj.
  { intros x Hx. destruct (Hpushed x Hx) as (H0 & o & Ho & ->).
    rewrite (gridX_at_lattice ix iy c Hlat), (gridY_at_lattice ix iy c Hlat)
      in *.
    rewrite Hidx. by apply cellIndex_adjacent. }
  split; [|split; [|split; [|split]]].
  - intros i c1 Hi. destruct (Hlook i c1 Hi) as [(-> & Hx & Hy & _)|[_ H]].
    + exists ix, iy. repeat split; try lia.
      * rewrite Hx. apply Hlat.
      * rewrite Hy. apply Hlat.
    + by apply Hgrid.
  - intros i c1 Hi. destruct (Hlook i c1 Hi) as [(_ & _ & _ & H1)|[_ H]].
    + by right.
    + by eapply Hst.
  - intros i c1 Hi Ht. destruct (Hlook i c1 Hi) as [(_ & Hx & Hy & _)|[_ H]].
    + by rewrite Hx, Hy.
    + by eapply Hsafe.
  - assert (forall a, tumor_idx cs1 a -> connected cs1 a n) as Hton.
    { intros a Ha. destruct (Hback a Ha) as [->|Ha0]; [apply rst_refl|].
      destruct Hq as [[Hnone _]|Hq]; [by destruct (Hnone a)|].
      destruct (Hq (Z.of_nat n)) as (t & Ht & Htadj); [by left|].
      apply rst_trans with t.
      - apply (connected_mono cs cs1); [exact Hmono|by apply Hcomp].
      - apply rst_step. split; [by apply Hmono|]. by split. }
    intros a b Ha Hb. apply rst_trans with n; [by apply Hton|].
    apply rst_sym. by apply Hton.
  - right. intros x Hx. apply elem_of_app in Hx as [Hx|Hx].
    + destruct Hq as [[_ Hlen]|Hq].
      * simpl in Hlen. destruct q; [by apply elem_of_nil in Hx|].
        simpl in Hlen. lia.
      * destruct (Hq x) as (t & Ht & Htadj); [by right|].
        exists t. split; [by apply Hmono|done].
    + exists n. split; [exact Htn|by apply Hadj].
Qed.

Lemma seed_round_inv idx s w :
  seeding_inv (cells w) (idx :: s_q s) ->
  seeding_inv (cells (snd (seed_round E idx s w)))
    (s_q (fst (seed_round E idx s w))).
Proof.
  intros Hinv. unfold seed_round, bind, get_cells, ret.
  destruct ((idx <? 0)%Z || (Z.of_nat (length (cells w)) <=? idx)%Z) eqn:Hg;
    [by eapply seeding_inv_tail|].
  apply orb_false_iff in Hg as [Hg0 Hg1].
  destruct (cells w !! Z.to_nat idx) as [c|] eqn:Hc;
    [|by eapply seeding_inv_tail].
  destruct (isInVesselXY E (c_x c) (c_y c)) eqn:Hv;
    [by eapply seeding_inv_tail|].
  assert (idx = Z.of_nat (Z.to_nat idx)) as Hidx by lia.
  rewrite Hidx in Hinv.
  destruct (c_state c =? 0)%Z eqn:Hs0.
  - unfold Math_random, set_cell. cbv beta iota zeta.
    match goal with |- context [shuffle E ?ks ?l ?w1] =>
      destruct (shuffle_spec ks l w1) as [Hcells Helem];
      destruct (shuffle E ks l w1) as [neigh' w2] end.
    cbn [fst snd] in *.
    match goal with |- context [pushNeighbors E neigh' ?s1] =>
      destruct (pushNeighbors_spec neigh' s1) as (pushed & Hq & Hp) end.
    rewrite Hq, Hcells.
    eapply seeding_inv_round; [exact Hinv | exact Hc | exact Hv | | ].
    + right. split; [lia|]. eexists. reflexivity.
    + intros x Hx. destruct (Hp x Hx) as (H0 & o & Ho & ->).
      split; [done|]. apply Helem in Ho.
      apply list_elem_of_fmap in Ho as (o' & -> & Ho'). by exists o'.
  - cbv beta iota zeta.
    match goal with |- context [shuffle E ?ks ?l ?w1] =>
      destruct (shuffle_spec ks l w1) as [Hcells Helem];
      destruct (shuffle E ks l w1) as [neigh' w2] end.
    cbn [fst snd] in *.
    match goal with |- context [pushNeighbors E neigh' ?s1] =>
      destruct (pushNeighbors_spec neigh' s1) as (pushed & Hq & Hp) end.
    rewrite Hq, Hcells.
    eapply seeding_inv_round; [exact Hinv | exact Hc | exact Hv | | ].
    + left. split; [done|]. unfold is_tumor.
      destruct Hinv as (_ & Hst & _). destruct (Hst _ _ Hc); lia.
    + intros x Hx. destruct (Hp x Hx) as (H0 & o & Ho & ->).
      split; [done|]. apply Helem in Ho.
      apply list_elem_of_fmap in Ho as (o' & -> & Ho'). by exists o'.
Qed.

Lemma seedLoop_inv fuel tc s w :
  seeding_inv (cells w) (s_q s) ->
  exists q, seeding_inv (cells (snd (seedLoop E fuel tc s w))) q.
Proof.
  revert s w. induction fuel as [|fuel IH]; intros s w Hinv; simpl;
    destruct (s_q s) as [|idx q'] eqn:Hq; simpl; eauto;
    destruct (s_seeded s <? tc)%Z; simpl; eauto.
  unfold bind.
  pose proof (seed_round_inv idx (mkSeeding q' (s_seen s) (s_seeded s)) w
                Hinv) as Hr.
  destruct (seed_round E idx _ w) as [s' w']. simpl in Hr.
  by apply IH.
Qed.

(** *** The loop ends *)

(** The indices of the lattice. *)
Definition lattice : gset Z :=
  list_to_set (Z.of_nat <$> seq 0 (Z.to_nat (rows E * cols E))).

(** Indices not yet seen, plus the length of the queue: every round
    takes one index out of the queue, and every push moves one index from
    the unseen ones to the queue. *)
Definition potential (U : gset Z) (s : seeding) : nat :=
  size (U ∖ s_seen s) + length (s_q s).

Lemma cellIndex_lattice nx ny :
  (0 <= cellIndex E nx ny)%Z -> cellIndex E nx ny ∈ lattice.
Proof.
  unfold cellIndex. destruct (_ || _ || _ || _)%bool eqn:Hb; [lia|].
  intros _. repeat (apply orb_false_iff in Hb as [Hb ?]).
  unfold lattice. apply elem_of_list_to_set, list_elem_of_fmap.
  exists (Z.to_nat (ny * cols E + nx)). split; [nia|].
  apply elem_of_seq. nia.
Qed.

Lemma size_lattice : (size lattice <= Z.to_nat (rows E * cols E))%nat.
Proof.
  unfold lattice. rewrite size_list_to_set.
  - by rewrite length_fmap, length_seq.
  - apply NoDup_fmap_2; [apply Nat2Z.inj' | apply NoDup_seq].
Qed.

Lemma pushNeighbors_potential (U : gset Z) neigh s :
  lattice ⊆ U ->
  potential U (pushNeighbors E neigh s) = potential U s.
Proof.
  intros HU. revert s. induction neigh as [|[nx ny] neigh IH]; intros s;
    simpl; [done|].
  destruct ((0 <=? cellIndex E nx ny)%Z
            && negb (bool_decide (cellIndex E nx ny ∈ s_seen s))) eqn:Hg;
    [|apply IH].
  rewrite IH. apply andb_true_iff in Hg as [Hg0 Hg1].
  apply negb_true_iff, bool_decide_eq_false in Hg1.
  assert (cellIndex E nx ny ∈ U) as Hin
    by (apply HU, cellIndex_lattice; lia).
  unfold potential. simpl. rewrite length_app. simpl.
  generalize dependent (cellIndex E nx ny). intros nidx _ Hg1 Hin.
  assert (U ∖ s_seen s = {[nidx]} ∪ U ∖ ({[nidx]} ∪ s_seen s)) as ->.
  { apply set_eq. intros x.
    rewrite elem_of_union, !elem_of_difference, elem_of_union,
      elem_of_singleton.
    destruct (decide (x = nidx)) as [->|]; naive_solver. }
  assert ({[nidx]} ## U ∖ ({[nidx]} ∪ s_seen s)) as Hd by set_solver.
  rewrite (size_union (C:=gset Z) _ _ Hd), (size_singleton (C:=gset Z)).
  lia.
Qed.

Lemma seed_round_potential (U : gset Z) idx s w :
  lattice ⊆ U ->
  potential U (fst (seed_round E idx s w)) = potential U s.
Proof.
  intros HU. unfold seed_round, bind, get_cells, ret.
  destruct (_ || _)%bool; [done|].
  destruct (cells w !! Z.to_nat idx) as [c|]; [|done].
  destruct (isInVesselXY E (c_x c) (c_y c)); [done|].
  destruct (c_state c =? 0)%Z; unfold Math_random, set_cell;
    cbv beta iota zeta;
    match goal with |- context [shuffle E ?ks ?l ?w1] =>
      destruct (shuffle E ks l w1) as [neigh' w2] end;
    cbn [fst snd]; by rewrite pushNeighbors_potential.
Qed.

Lemma seedLoop_terminates (U : gset Z) fuel tc s w :
  lattice ⊆ U ->
  (potential U s < fuel)%nat ->
  fst (seedLoop E fuel tc s w) = true.
Proof.
  intros HU. revert s w. induction fuel as [|fuel IH]; intros s w Hp;
    [lia|].
  simpl. destruct (s_q s) as [|idx q'] eqn:Hq; [done|].
  destruct (s_seeded s <? tc)%Z; [|done].
  unfold bind.
  pose proof (seed_round_potential U idx
                (mkSeeding q' (s_seen s) (s_seeded s)) w HU) as Hr.
  destruct (seed_round E idx _ w) as [s' w']. cbn [fst] in Hr.
  apply IH. rewrite Hr. unfold potential in *. rewrite Hq in Hp.
  simpl in *. lia.
Qed.

(** *** The result of [seedInitial] *)

Lemma killed_inv (cs : list cell) (startIdx : Z) :
  on_grid E cs -> seeding_inv (killed <$> cs) [startIdx].
Proof.
  intros Hgrid.
  assert (forall i c, (killed <$> cs) !! i = Some c ->
            exists c0, cs !! i = Some c0 /\ c = killed c0) as Hk.
  { intros i c Hi. apply list_lookup_fmap_Some in Hi as (c0 & -> & H0).
    eauto. }
  split; [|split; [|split; [|split]]].
  - intros i c Hi. destruct (Hk i c Hi) as (c0 & H0 & ->).
    destruct (Hgrid i c0 H0) as (ix & iy & ? & ? & ? & Hlat).
    exists ix, iy. repeat split; try lia; apply Hlat.
  - intros i c Hi. destruct (Hk i c Hi) as (c0 & H0 & ->). by left.
  - intros i c Hi Ht. destruct (Hk i c Hi) as (c0 & H0 & ->). done.
  - intros a b (c & Hi & Ht). destruct (Hk a c Hi) as (c0 & H0 & ->). done.
  - left. split; [|simpl; lia].
    intros a (c & Hi & Ht). destruct (Hk a c Hi) as (c0 & H0 & ->). done.
Qed.

Lemma seedLoop_from_start tc (startIdx : Z) (w : world) :
  fst (seedLoop E (S (S (Z.to_nat (rows E * cols E)))) tc
         (mkSeeding [startIdx] {[startIdx]} 0) w) = true.
Proof.
  apply (seedLoop_terminates ({[startIdx]} ∪ lattice)); [set_solver|].
  unfold potential. cbn [s_q s_seen length].
  assert (size (({[startIdx]} ∪ lattice) ∖ {[startIdx]}) <= size lattice)%nat
    as Hs by (apply subseteq_size; set_solver).
  pose proof size_lattice. lia.
Qed.

Lemma seedInitial_spec startAmount (w : world) :
  on_grid E (cells w) ->
  fst (seedInitial E startAmount w) = true
  /\ exists q, seeding_inv (cells (snd (seedInitial E startAmount w))) q.
Proof.
  intros Hgrid. unfold seedInitial, bind, get_cells, Math_random.
  cbv beta iota zeta. cbn [cells with_cells].
  split; [apply seedLoop_from_start|].
  apply seedLoop_inv. cbn [s_q cells]. by apply killed_inv.
Qed.


Lemma start_safe startAmount w w' :
  start E startAmount w = Some w' -> safe E w -> safe E w'.
Proof.
  unfold start. destruct (running w); [by intros [= <-]|].
  destruct (seedInitial_spec startAmount
              (exec (initCells E) (with_running true w)))
    as (_ & q & Hinv); [apply initCells_on_grid|].
  destruct (seedInitial E startAmount _) as [finished w2].
  destruct finished; [|discriminate]. intros [= <-] _.
  destruct Hinv as (_ & _ & Hsafe & _). exact Hsafe.
Qed.

(** [start()] always completes. *)
Lemma start_total startAmount w : is_Some (start E startAmount w).
Proof.
  unfold start. destruct (running w); [by eexists|].
  destruct (seedInitial_spec startAmount
              (exec (initCells E) (with_running true w)))
    as (Hend & _); [apply initCells_on_grid|].
  destruct (seedInitial E startAmount _) as [finished w2].
  simpl in Hend. subst finished. by eexists.
Qed.

End Seeding.

(** ** Reachable states *)

(** The states the page can be in: the script is loaded, and then the user
    clicks Run, Stop or Dose, with any slider values, while the timer set
    by [start()] calls [tick()] as long as the simulation is running. *)
Inductive reachable (E : env) : world -> Prop :=
  | reach_loaded : reachable E (loaded E)
  | reach_start startAmount w w' :
      reachable E w -> start E startAmount w = Some w' -> reachable E w'
  | reach_stop w : reachable E w -> reachable E (stop w)
  | reach_tick growthRate drugAmount w w' :
      reachable E w -> running w = true ->
      tick E growthRate drugAmount w = Some w' -> reachable E w'
  | reach_dose drugAmount w :
      reachable E w -> reachable E (giveDose E drugAmount w).

Section Invariant.

Variable E : env.

Lemma spawn_one_same_cells amount : preserves same_cells (spawn_one E amount).
Proof. unfold spawn_one. sim_auto. Qed.

Lemma spawnDrugParticles_same_cells dose :
  preserves same_cells (spawnDrugParticles E dose).
Proof. unfold spawnDrugParticles. sim_auto. apply spawn_one_same_cells. Qed.

Lemma giveDose_same_cells drugAmount w :
  cells (giveDose E drugAmount w) = cells w.
Proof.
  unfold giveDose. destruct (Num.leb drugAmount 0); [done|].
  destruct (spawn_installed w); [|done].
  apply (spawnDrugParticles_same_cells (Some drugAmount) w).
Qed.

Lemma loaded_safe : safe E (loaded E).
Proof.
  intros i c Hi Ht. simpl in Hi. unfold initCells_cells in Hi.
  apply list_elem_of_lookup_2, list_elem_of_In, in_concat in Hi
    as (r & Hr & Hc).
  apply in_map_iff in Hr as (iy & <- & _).
  apply in_map_iff in Hc as (ix & <- & _). done.
Qed.

(** C4: in every reachable state, no site is Tumor and inside the
    vessel. *)
Theorem vessel_exclusion (w : world) :
  reachable E w ->
  forall i c, cells w !! i = Some c -> is_tumor c = true ->
              isInVesselXY E (c_x c) (c_y c) = false.
Proof.
  intros Hr. change (safe E w).
  induction Hr as [|a w w' _ IH Hs| w _ IH |g d w w' _ IH _ Ht|d w _ IH].
  - apply loaded_safe.
  - eapply start_safe; eauto.
  - exact IH.
  - eapply stepSimulation_safe; eauto.
  - eapply safe_same_cells; [|exact IH]. apply giveDose_same_cells.
Qed.

End Invariant.

(** ** Dosing *)

Section Dosing.

Variable E : env.

Local Open Scope Q_scope.










End Dosing.





(** ** Runs of the script on the concrete host *)

Lemma host_started : start Host.E 20 (loaded Host.E) = Some Host.started.
Proof.
  unfold Host.started.
  destruct (start_total Host.E 20 (loaded Host.E)) as [w ->]. reflexivity.
Qed.

Lemma host_ticked : tick Host.E 0 100 Host.started = Some Host.ticked.
Proof.
  unfold Host.ticked, tick.
  destruct (stepSimulation_total Host.E 0 100 Host.started) as [w ->].
  reflexivity.
Qed.

Lemma host_dosed_reachable : reachable Host.E Host.dosed.
Proof.
  unfold Host.dosed. simpl Nat.iter. do 13 apply reach_dose.
  apply (reach_tick Host.E 0 100 Host.started Host.ticked);
    [|vm_compute; reflexivity|apply host_ticked].
  eapply reach_start; [apply reach_loaded|apply host_started].
Qed.

Lemma vessel_exclusion_witness :
  exists c, cells Host.started !! 100%nat = Some c
            /\ is_tumor c = true
            /\ isInVesselXY Host.E (c_x c) (c_y c) = false.
Proof.
  eexists. split; [vm_compute; reflexivity|]. split; [reflexivity|].
  refine (vessel_exclusion Host.E Host.started _ 100%nat _ _ _);
    [|vm_compute; reflexivity|reflexivity].
  eapply reach_start; [apply reach_loaded|apply host_started].
Defined.

Lemma particle_cap_witness :
  (length (particles Host.ticked)
   <= Nat.max MAX_PARTICLES (length (particles Host.started)))%nat
  /\ forall v : world,
       particles (exec appendSpawned v)
       = particles v
         ++ take (if (MAX_PARTICLES <? length (particles v) + length (spawned v))%nat
                  then MAX_PARTICLES - length (particles v)
                  else length (spawned v))%nat (spawned v).
Proof.
  apply (particle_cap Host.E 0 100 Host.started Host.ticked).
  unfold Host.ticked. vm_compute. reflexivity.
Defined.

(** C8, as the specification has it, fails: thirteen doses of 100 compounds
    after the first tick give 1300 particles, and the next tick keeps them
    all. *)
Lemma cap_exceeded_after_doses :
  reachable Host.E Host.dosed
  /\ (fun w' => length (particles w')) <$> tick Host.E 0 100 Host.dosed
     = Some 1300%nat.
Proof. split; [apply host_dosed_reachable|]. vm_compute. reflexivity. Qed.

(** ** The misplaced brace of the particle loop

    The block [if(part.type === 'compound' && part.leached)] of
    [stepSimulation] is closed after the test for particles that left the
    canvas, and the loop over the particles is closed after the filter.  So
    the block of the Y particles is only reached by compounds, and the
    spawned batch is appended, again and again, while the loop runs. *)

Lemma interaction_Y (E : env) (p : particle) :
  p_type p = Y -> interaction E p = ret p.
Proof. intros H. unfold interaction. by rewrite H. Qed.

(** The test of a Y particle against its target, on the state [w]:
    [Math.hypot(tgt.x - part.x, tgt.y - part.y) <= tgt.size + 10]. *)
Definition in_reach (E : env) (w : world) (r : positive) (t : nat)
  : option bool :=
  match heap w !! r, cells w !! t with
  | Some p, Some tgt =>
      Some (Num.leb (hypot (Math E) (c_x tgt - p_x p) (c_y tgt - p_y p))
              (c_size tgt + 10))
  | _, _ => None
  end.

(** C1 fails on the script.  A Y particle sitting on its live target: after
    the tick the target is still Tumor, the particle is still within reach
    of it, alive and in the array.  A Y particle whose target is healthy:
    after the tick it is idle, not dead. *)
Theorem targeted_Y_spares_its_target :
  (fun w' => (is_tumor <$> cells w' !! Host.site,
              in_reach Host.E w' 1%positive Host.site,
              p_dead <$> heap w' !! 1%positive, particles w'))
    <$> tick Host.E 0 50 (Host.world_with Host.y_on_target)
  = Some (Some true, Some true, Some false, [1%positive])
  /\ (fun w' => (is_tumor <$> cells w' !! 101%nat,
                 p_idle <$> heap w' !! 1%positive,
                 p_dead <$> heap w' !! 1%positive, particles w'))
       <$> tick Host.E 0 50
             (Host.world_with
                (newY_seek Host.site_x Host.site_y 0 0 101 Host.site))
     = Some (Some false, Some true, Some false, [1%positive]).
Proof. split; vm_compute; reflexivity. Qed.

(** C2 fails on the script.  A leached compound on the only tumor of the
    grid: the contact kills the site, marks the compound dead and creates
    four objects (the heap holds five afterwards), but the array of
    particles ends the tick with 1200 entries, not 4. *)
Theorem contact_event_floods_particles :
  (fun w' => (is_tumor <$> cells w' !! Host.site,
              p_dead <$> heap w' !! 1%positive,
              size (heap w'), length (particles w')))
    <$> tick Host.E 0 50 (Host.world_with Host.compound_on_tumor)
  = Some (Some false, Some true, 5%nat, 1200%nat).
Proof. vm_compute. reflexivity. Qed.

(** C3 fails on the script.  The object of reference 2 does not exist
    before the tick; it is one of the four Y particles of the split, created
    with 80 ticks to live, and within the same tick the loop ages it 299
    times and marks it dead. *)
Theorem spawned_particle_acts_in_same_tick :
  heap (Host.world_with Host.compound_on_tumor) !! 2%positive = None
  /\ p_ttl (newY_idle Host.site_x Host.site_y Host.site) = Some 80%Z
  /\ (fun w' => (p_type <$> heap w' !! 2%positive,
                 p_ttl <$> heap w' !! 2%positive,
                 p_dead <$> heap w' !! 2%positive))
       <$> tick Host.E 0 50 (Host.world_with Host.compound_on_tumor)
     = Some (Some Y, Some (Some (-219)%Z), Some true).
Proof. repeat split; vm_compute; reflexivity. Qed.
